(** * Rot3M: rotations stored as 3x3 matrices (gtsam/geometry/Rot3M.cpp)

    A shallow embedding of the matrix-backed [Rot3] class.

    - The storage layer (constructors, [matrix], [transpose], [inverse],
      [column]) only moves scalars around; it is written once for an
      arbitrary scalar type [D], so that what is proved about it cannot
      depend on any arithmetic.
    - The numerical layer ([Rx], [Ry], [Rz], [RzRyRx], [rodriguez],
      [Logmap], [retract], [localCoordinates], [RQ]) is written over the
      real numbers: a C++ [double] is read as the real it denotes and the
      [<cmath>] functions as the functions they approximate.  "Equal within
      tolerance" is stated either as an equation of reals or as an explicit
      bound on the difference.  Rounding, overflow, NaN and the sign of zero
      are not part of this reading: a statement about the charts, the norm
      of a vector or the angles of [RQ] therefore carries the bounds inside
      which the computation on doubles stays in range and well-conditioned,
      and a tolerance that leaves room for its rounding.
    - A C++ exception is a value of [exception] carried by [result]; the
      preprocessor symbol NDEBUG is a boolean argument. *)

From Stdlib Require Import Reals Lra Psatz RNsatz ZArith String.

(** * Exceptions *)

Inductive exception : Type :=
  | domain_error (what : string)
  | invalid_argument (what : string).

Inductive result (A : Type) : Type :=
  | Ok (a : A)
  | Throw (e : exception).

Arguments Ok {A} a.
Arguments Throw {A} e.

Definition bind {A B : Type} (m : result A) (k : A -> result B) : result B :=
  match m with
  | Ok a => k a
  | Throw e => Throw e
  end.

(** * Data model *)

(** [Point3]: three coordinates, read with [p.x()], [p.y()], [p.z()]. *)
Record Point3 (D : Type) : Type := mkPoint3 { px : D; py : D; pz : D }.

Arguments mkPoint3 {D} _ _ _.
Arguments px {D} _.
Arguments py {D} _.
Arguments pz {D} _.

(** A 3x3 [Matrix]; [mIJ A] is the entry [A(I,J)], rows first. *)
Record Matrix (D : Type) : Type := mkMatrix {
  m00 : D; m01 : D; m02 : D;
  m10 : D; m11 : D; m12 : D;
  m20 : D; m21 : D; m22 : D }.

Arguments mkMatrix {D} _ _ _ _ _ _ _ _ _.
Arguments m00 {D} _.
Arguments m01 {D} _.
Arguments m02 {D} _.
Arguments m10 {D} _.
Arguments m11 {D} _.
Arguments m12 {D} _.
Arguments m20 {D} _.
Arguments m21 {D} _.
Arguments m22 {D} _.

(** [Rot3] keeps the three columns [r1_], [r2_], [r3_]. *)
Record Rot3 (D : Type) : Type := mkRot3 {
  r1_ : Point3 D; r2_ : Point3 D; r3_ : Point3 D }.

Arguments mkRot3 {D} _ _ _.
Arguments r1_ {D} _.
Arguments r2_ {D} _.
Arguments r3_ {D} _.

(** Unary minus on scalars, the only arithmetic the storage layer touches
    (in the Jacobian of [inverse]). *)
Class Negate (D : Type) : Type := negate : D -> D.

Arguments negate {D _} _.

Section Storage.
Context {D : Type}.

(** [Rot3(const Point3& r1, const Point3& r2, const Point3& r3)] *)
Definition Rot3_columns (r1 r2 r3 : Point3 D) : Rot3 D := mkRot3 r1 r2 r3.

(** [Rot3(double R11, ..., double R33)]: row-major arguments, stored by
    column. *)
Definition Rot3_entries (R11 R12 R13 R21 R22 R23 R31 R32 R33 : D) : Rot3 D :=
  mkRot3 (mkPoint3 R11 R21 R31) (mkPoint3 R12 R22 R32) (mkPoint3 R13 R23 R33).

(** [Rot3(const Matrix& R)] *)
Definition Rot3_of_Matrix (R : Matrix D) : Rot3 D :=
  mkRot3 (mkPoint3 (m00 R) (m10 R) (m20 R))
         (mkPoint3 (m01 R) (m11 R) (m21 R))
         (mkPoint3 (m02 R) (m12 R) (m22 R)).

(** [Rot3::matrix] *)
Definition matrix (R : Rot3 D) : Matrix D :=
  mkMatrix
    (px (r1_ R)) (px (r2_ R)) (px (r3_ R))
    (py (r1_ R)) (py (r2_ R)) (py (r3_ R))
    (pz (r1_ R)) (pz (r2_ R)) (pz (r3_ R)).

(** [Rot3::transpose] *)
Definition transpose (R : Rot3 D) : Matrix D :=
  mkMatrix
    (px (r1_ R)) (py (r1_ R)) (pz (r1_ R))
    (px (r2_ R)) (py (r2_ R)) (pz (r2_ R))
    (px (r3_ R)) (py (r3_ R)) (pz (r3_ R)).

(** Transposition of a dense matrix, the reading of "Rᵗ" used to state
    what [inverse] and [transpose] return. *)
Definition Matrix_transposed (A : Matrix D) : Matrix D :=
  mkMatrix
    (m00 A) (m10 A) (m20 A)
    (m01 A) (m11 A) (m21 A)
    (m02 A) (m12 A) (m22 A).

(** [Rot3::column]: the index is a C++ [int]. *)
Definition column (R : Rot3 D) (index : Z) : result (Point3 D) :=
  if (index =? 3)%Z then Ok (r3_ R)
  else if (index =? 2)%Z then Ok (r2_ R)
  else if (index =? 1)%Z then Ok (r1_ R)
  else Throw (invalid_argument "Argument to Rot3::column must be 1, 2, or 3").

Context {neg : Negate D}.

(** Entrywise [-A]. *)
Definition Matrix_opp (A : Matrix D) : Matrix D :=
  mkMatrix
    (negate (m00 A)) (negate (m01 A)) (negate (m02 A))
    (negate (m10 A)) (negate (m11 A)) (negate (m12 A))
    (negate (m20 A)) (negate (m21 A)) (negate (m22 A)).

(** [Rot3::inverse].  The argument [H1] is the caller's optional Jacobian
    slot ([None] when no slot is passed, [Some old] when one is); the
    second component of the result is the slot after the call. *)
Definition inverse (R : Rot3 D) (H1 : option (Matrix D))
  : Rot3 D * option (Matrix D) :=
  let H1' := match H1 with
             | Some _ => Some (Matrix_opp (matrix R))
             | None => None
             end in
  (Rot3_entries
     (px (r1_ R)) (py (r1_ R)) (pz (r1_ R))
     (px (r2_ R)) (py (r2_ R)) (pz (r2_ R))
     (px (r3_ R)) (py (r3_ R)) (pz (r3_ R)),
   H1').

End Storage.

(** * The numerical layer, over the reals *)

Local Open Scope R_scope.

#[warnings="-notation-for-abbreviation"]
Notation double := R (only parsing).

#[export] Instance Negate_double : Negate double := Ropp.

(** A [Vector] of dimension 3, built by [Vector_(3, a, b, c)] and read by
    [w(0)], [w(1)], [w(2)]. *)
Record Vector : Type := Vector_3 { v0 : double; v1 : double; v2 : double }.

(** ** Primitives of the vector and matrix library *)

(** [s * v] *)
Definition Vector_scale (s : double) (v : Vector) : Vector :=
  Vector_3 (s * v0 v) (s * v1 v) (s * v2 v).

(** [v / s] *)
Definition Vector_div (v : Vector) (s : double) : Vector :=
  Vector_3 (v0 v / s) (v1 v / s) (v2 v / s).

(** [v.norm()]: the square root of the sum of the squares, which on doubles
    is in range for coordinates up to about 1e154. *)
Definition Vector_norm (v : Vector) : double :=
  sqrt (v0 v * v0 v + v1 v * v1 v + v2 v * v2 v).

(** [p * s] and [p + q] on [Point3]. *)
Definition Point3_scale (p : Point3 double) (s : double) : Point3 double :=
  mkPoint3 (px p * s) (py p * s) (pz p * s).

Definition Point3_add (p q : Point3 double) : Point3 double :=
  mkPoint3 (px p + px q) (py p + py q) (pz p + pz q).

(** [eye(3)] *)
Definition I3 : Matrix double := mkMatrix 1 0 0 0 1 0 0 0 1.

(** [A * B] *)
Definition Matrix_mul (A B : Matrix double) : Matrix double :=
  mkMatrix
    (m00 A * m00 B + m01 A * m10 B + m02 A * m20 B)
    (m00 A * m01 B + m01 A * m11 B + m02 A * m21 B)
    (m00 A * m02 B + m01 A * m12 B + m02 A * m22 B)
    (m10 A * m00 B + m11 A * m10 B + m12 A * m20 B)
    (m10 A * m01 B + m11 A * m11 B + m12 A * m21 B)
    (m10 A * m02 B + m11 A * m12 B + m12 A * m22 B)
    (m20 A * m00 B + m21 A * m10 B + m22 A * m20 B)
    (m20 A * m01 B + m21 A * m11 B + m22 A * m21 B)
    (m20 A * m02 B + m21 A * m12 B + m22 A * m22 B).

(** [A + B], [A - B], [A / s] *)
Definition Matrix_add (A B : Matrix double) : Matrix double :=
  mkMatrix
    (m00 A + m00 B) (m01 A + m01 B) (m02 A + m02 B)
    (m10 A + m10 B) (m11 A + m11 B) (m12 A + m12 B)
    (m20 A + m20 B) (m21 A + m21 B) (m22 A + m22 B).

Definition Matrix_sub (A B : Matrix double) : Matrix double :=
  mkMatrix
    (m00 A - m00 B) (m01 A - m01 B) (m02 A - m02 B)
    (m10 A - m10 B) (m11 A - m11 B) (m12 A - m12 B)
    (m20 A - m20 B) (m21 A - m21 B) (m22 A - m22 B).

Definition Matrix_div (A : Matrix double) (s : double) : Matrix double :=
  mkMatrix
    (m00 A / s) (m01 A / s) (m02 A / s)
    (m10 A / s) (m11 A / s) (m12 A / s)
    (m20 A / s) (m21 A / s) (m22 A / s).

(** [A.determinant()] and [A.inverse()] for a fixed-size 3x3 matrix, by
    cofactors. *)
Definition Matrix_det (A : Matrix double) : double :=
  m00 A * (m11 A * m22 A - m12 A * m21 A)
  - m01 A * (m10 A * m22 A - m12 A * m20 A)
  + m02 A * (m10 A * m21 A - m11 A * m20 A).

Definition Matrix_inverse (A : Matrix double) : Matrix double :=
  let d := Matrix_det A in
  mkMatrix
    ((m11 A * m22 A - m12 A * m21 A) / d)
    ((m02 A * m21 A - m01 A * m22 A) / d)
    ((m01 A * m12 A - m02 A * m11 A) / d)
    ((m12 A * m20 A - m10 A * m22 A) / d)
    ((m00 A * m22 A - m02 A * m20 A) / d)
    ((m02 A * m10 A - m00 A * m12 A) / d)
    ((m10 A * m21 A - m11 A * m20 A) / d)
    ((m01 A * m20 A - m00 A * m21 A) / d)
    ((m00 A * m11 A - m01 A * m10 A) / d).

(** [skewSymmetric(wx, wy, wz)] and [skewSymmetric(w)] *)
Definition skewSymmetric3 (wx wy wz : double) : Matrix double :=
  mkMatrix
    0 (- wz) wy
    wz 0 (- wx)
    (- wy) wx 0.

Definition skewSymmetric (w : Vector) : Matrix double :=
  skewSymmetric3 (v0 w) (v1 w) (v2 w).

(** [equal_with_abs_tol] on matrices and on vectors: every entry differs by
    at most [tol]. *)
Definition equal_with_abs_tol (A B : Matrix double) (tol : double) : Prop :=
  Rabs (m00 A - m00 B) <= tol /\ Rabs (m01 A - m01 B) <= tol /\
  Rabs (m02 A - m02 B) <= tol /\ Rabs (m10 A - m10 B) <= tol /\
  Rabs (m11 A - m11 B) <= tol /\ Rabs (m12 A - m12 B) <= tol /\
  Rabs (m20 A - m20 B) <= tol /\ Rabs (m21 A - m21 B) <= tol /\
  Rabs (m22 A - m22 B) <= tol.

Definition Vector_equal_with_abs_tol (v w : Vector) (tol : double) : Prop :=
  Rabs (v0 v - v0 w) <= tol /\ Rabs (v1 v - v1 w) <= tol /\
  Rabs (v2 v - v2 w) <= tol.

(** [Rot3::equals] *)
Definition Rot3_equals (R1 R2 : Rot3 double) (tol : double) : Prop :=
  equal_with_abs_tol (matrix R1) (matrix R2) tol.

(** [atan2(y, x)] of <cmath>, as the angle of the point [(x, y)] in
    (-PI, PI].  On the negative x axis <cmath> tells [atan2(-0.0, x)] = −π
    from [atan2(+0.0, x)] = π; the reals have one zero and the angle is π. *)
Definition atan2 (y x : double) : double :=
  if Rlt_dec 0 x then atan (y / x)
  else if Rlt_dec x 0 then
    if Rle_dec 0 y then atan (y / x) + PI else atan (y / x) - PI
  else if Rlt_dec 0 y then PI / 2
  else if Rlt_dec y 0 then - (PI / 2)
  else 0.

(** Modelled from the spec: the fixed-size Cayley-transform primitive
    [Cayley<3>] is declared outside Rot3M.cpp.  The spec gives the
    increment [Cayley(-Omega/2)] as (I+Ω/2)(I−Ω/2)⁻¹, that is
    [Cayley(A) = (I - A) * (I + A).inverse()]. *)
Definition Cayley (A : Matrix double) : Matrix double :=
  Matrix_mul (Matrix_sub I3 A) (Matrix_inverse (Matrix_add I3 A)).

(** ** Constructors and factories *)

(** [Rot3()] *)
Definition Rot3_identity : Rot3 double :=
  mkRot3 (mkPoint3 1 0 0) (mkPoint3 0 1 0) (mkPoint3 0 0 1).

Definition Rx (t : double) : Rot3 double :=
  let st := sin t in let ct := cos t in
  Rot3_entries
    1 0 0
    0 ct (- st)
    0 st ct.

Definition Ry (t : double) : Rot3 double :=
  let st := sin t in let ct := cos t in
  Rot3_entries
    ct 0 st
    0 1 0
    (- st) 0 ct.

Definition Rz (t : double) : Rot3 double :=
  let st := sin t in let ct := cos t in
  Rot3_entries
    ct (- st) 0
    st ct 0
    0 0 1.

Definition RzRyRx (x y z : double) : Rot3 double :=
  let cx := cos x in let sx := sin x in
  let cy := cos y in let sy := sin y in
  let cz := cos z in let sz := sin z in
  let ss_ := sx * sy in
  let cs_ := cx * sy in
  let sc_ := sx * cy in
  let cc_ := cx * cy in
  let c_s := cx * sz in
  let s_s := sx * sz in
  let _cs := cy * sz in
  let _cc := cy * cz in
  let s_c := sx * cz in
  let c_c := cx * cz in
  let ssc := ss_ * cz in let csc := cs_ * cz in
  let sss := ss_ * sz in let css := cs_ * sz in
  Rot3_entries
    _cc (- c_s + ssc) (s_s + csc)
    _cs (c_c + sss) (- s_c + css)
    (- sy) sc_ cc_.

(** [Rot3::rodriguez(const Vector& w, double theta)].  The unit-length test
    sits between [#ifndef NDEBUG] and [#endif]. *)
Definition rodriguez (NDEBUG : bool) (w : Vector) (theta : double)
  : result (Rot3 double) :=
  let wx := v0 w in let wy := v1 w in let wz := v2 w in
  let wwTxx := wx * wx in let wwTyy := wy * wy in let wwTzz := wz * wz in
  bind
    (if NDEBUG then Ok tt
     else
       let l_n := wwTxx + wwTyy + wwTzz in
       if Rgt_dec (Rabs (l_n - 1)) 1e-9
       then Throw (domain_error "rodriguez: length of n should be 1")
       else Ok tt)
    (fun _ =>
       let c := cos theta in let s := sin theta in let c_1 := 1 - c in
       let swx := wx * s in let swy := wy * s in let swz := wz * s in
       let C00 := c_1 * wwTxx in
       let C01 := c_1 * wx * wy in
       let C02 := c_1 * wx * wz in
       let C11 := c_1 * wwTyy in
       let C12 := c_1 * wy * wz in
       let C22 := c_1 * wwTzz in
       Ok (Rot3_entries
             (c + C00) (- swz + C01) (swy + C02)
             (swz + C01) (c + C11) (- swx + C12)
             (- swy + C02) (swx + C12) (c + C22))).

(** [Rot3::rodriguez(const Vector& w)] *)
Definition rodriguez_vector (NDEBUG : bool) (w : Vector)
  : result (Rot3 double) :=
  let t := Vector_norm w in
  if Rlt_dec t 1e-10 then Ok Rot3_identity
  else rodriguez NDEBUG (Vector_div w t) t.

(** Modelled from the spec: [Expmap] is declared in the class header, not
    in Rot3M.cpp.  The spec gives the EXPMAP increment as
    "Δ = Rodrigues(ω)". *)
Definition Expmap (NDEBUG : bool) (omega : Vector) : result (Rot3 double) :=
  rodriguez_vector NDEBUG omega.

(** ** Group operations *)

(** [Rot3::rotate], as [operator*] calls it: without Jacobian slots. *)
Definition rotate (R : Rot3 double) (p : Point3 double) : Point3 double :=
  Point3_add
    (Point3_add (Point3_scale (r1_ R) (px p)) (Point3_scale (r2_ R) (py p)))
    (Point3_scale (r3_ R) (pz p)).

(** [Rot3::operator*(const Rot3& R2)] *)
Definition Rot3_mul (R R2 : Rot3 double) : Rot3 double :=
  Rot3_columns (rotate R (r1_ R2)) (rotate R (r2_ R2)) (rotate R (r3_ R2)).

(** Modelled from the spec: [between_default] comes from the Lie-group
    helpers, outside Rot3M.cpp.  The spec gives "between(R1,R2) → R1⁻¹·R2". *)
Definition between_default (R1 R2 : Rot3 double) : Rot3 double :=
  Rot3_mul (fst (inverse R1 None)) R2.

(** [Rot3::between], with its two optional Jacobian slots. *)
Definition between (R R2 : Rot3 double) (H1 H2 : option (Matrix double))
  : Rot3 double * option (Matrix double) * option (Matrix double) :=
  let H1' := match H1 with
             | Some _ => Some (Matrix_opp (Matrix_mul (transpose R2) (matrix R)))
             | None => None
             end in
  let H2' := match H2 with Some _ => Some I3 | None => None end in
  (between_default R R2, H1', H2').

(** ** Manifold operations *)

(** [Rot3::Logmap] *)
Definition Logmap (R : Rot3 double) : Vector :=
  let tr := px (r1_ R) + py (r2_ R) + pz (r3_ R) in
  if Rlt_dec (Rabs (tr + 1)) 1e-10 then
    if Rgt_dec (Rabs (pz (r3_ R) + 1)) 1e-10 then
      Vector_scale (PI / sqrt (2 + 2 * pz (r3_ R)))
        (Vector_3 (px (r3_ R)) (py (r3_ R)) (1 + pz (r3_ R)))
    else if Rgt_dec (Rabs (py (r2_ R) + 1)) 1e-10 then
      Vector_scale (PI / sqrt (2 + 2 * py (r2_ R)))
        (Vector_3 (px (r2_ R)) (1 + py (r2_ R)) (pz (r2_ R)))
    else
      Vector_scale (PI / sqrt (2 + 2 * px (r1_ R)))
        (Vector_3 (1 + px (r1_ R)) (py (r1_ R)) (pz (r1_ R)))
  else
    let tr_3 := tr - 3 in
    let magnitude :=
      if Rlt_dec tr_3 (- 1e-7) then
        let theta := acos ((tr - 1) / 2) in
        theta / (2 * sin theta)
      else
        0.5 - tr_3 * tr_3 / 12
    in
    Vector_scale magnitude
      (Vector_3
         (pz (r2_ R) - py (r3_ R))
         (px (r3_ R) - pz (r1_ R))
         (py (r1_ R) - px (r2_ R))).

(** [Rot3::CoordinatesMode].  The enumeration is closed, so the final
    [assert(false); exit(1)] arm of [retract] and [localCoordinates] has no
    value to run on. *)
Inductive CoordinatesMode : Type := EXPMAP | CALEY | SLOW_CALEY.

(** [Rot3::retract] *)
Definition retract (NDEBUG : bool) (R : Rot3 double) (omega : Vector)
    (mode : CoordinatesMode) : result (Rot3 double) :=
  match mode with
  | EXPMAP =>
      bind (Expmap NDEBUG omega) (fun E => Ok (Rot3_mul R E))
  | CALEY =>
      let x := v0 omega in let y := v1 omega in let z := v2 omega in
      let x2 := x * x in let y2 := y * y in let z2 := z * z in
      let xy := x * y in let xz := x * z in let yz := y * z in
      let f := 1 / (4 + x2 + y2 + z2) in let _2f := 2 * f in
      Ok (Rot3_mul R (Rot3_entries
            ((4 + x2 - y2 - z2) * f) ((xy - 2 * z) * _2f) ((xz + 2 * y) * _2f)
            ((xy + 2 * z) * _2f) ((4 - x2 + y2 - z2) * f) ((yz - 2 * x) * _2f)
            ((xz - 2 * y) * _2f) ((yz + 2 * x) * _2f) ((4 - x2 - y2 + z2) * f)))
  | SLOW_CALEY =>
      let Omega := skewSymmetric omega in
      Ok (Rot3_mul R (Rot3_of_Matrix (Cayley (Matrix_div (Matrix_opp Omega) 2))))
  end.

(** [Rot3::localCoordinates] *)
Definition localCoordinates (R T : Rot3 double) (mode : CoordinatesMode)
  : Vector :=
  match mode with
  | EXPMAP => Logmap (fst (fst (between R T None None)))
  | CALEY =>
      let A := matrix (fst (fst (between R T None None))) in
      let a := m00 A in let b := m01 A in let c := m02 A in
      let d := m10 A in let e := m11 A in let f := m12 A in
      let g := m20 A in let h := m21 A in let i := m22 A in
      let di := d * i in let ce := c * e in let cd := c * d in
      let fg := f * g in
      let M := 1 + e - f * h + i + e * i in
      let K := 2 / (cd * h + M + a * M - g * (c + ce) - b * (d + di - fg)) in
      let x := (a * f - cd + f) * K in
      let y := (b * f - ce - c) * K in
      let z := (fg - di - d) * K in
      Vector_scale (- (2)) (Vector_3 x y z)
  | SLOW_CALEY =>
      let A := matrix (fst (fst (between R T None None))) in
      let Omega := Cayley A in
      Vector_scale (- (2)) (Vector_3 (m21 Omega) (m02 Omega) (m10 Omega))
  end.

(** ** Decomposition *)

(** [RQ] *)
Definition RQ (A : Matrix double) : Matrix double * Vector :=
  let x := - atan2 (- m21 A) (m22 A) in
  let Qx := Rx (- x) in
  let B := Matrix_mul A (matrix Qx) in
  let y := - atan2 (m20 B) (m22 B) in
  let Qy := Ry (- y) in
  let C := Matrix_mul B (matrix Qy) in
  let z := - atan2 (- m10 C) (m11 C) in
  let Qz := Rz (- z) in
  let R := Matrix_mul C (matrix Qz) in
  let xyz := Vector_3 x y z in
  (R, xyz).

(** ** Predicates used in the statements *)

Definition dot (p q : Point3 double) : double :=
  px p * px q + py p * py q + pz p * pz q.

(** The class invariant RᵗR = I, column by column. *)
Definition orthonormal (R : Rot3 double) : Prop :=
  dot (r1_ R) (r1_ R) = 1 /\ dot (r2_ R) (r2_ R) = 1 /\
  dot (r3_ R) (r3_ R) = 1 /\ dot (r1_ R) (r2_ R) = 0 /\
  dot (r1_ R) (r3_ R) = 0 /\ dot (r2_ R) (r3_ R) = 0.

(** A unit-length axis. *)
Definition unit_length (w : Vector) : Prop :=
  v0 w * v0 w + v1 w * v1 w + v2 w * v2 w = 1.

(** The trace read by [Logmap]. *)
Definition trace (R : Rot3 double) : double :=
  px (r1_ R) + py (r2_ R) + pz (r3_ R).

(** The vector [Logmap] scales outside its half-turn branch. *)
Definition vee (R : Rot3 double) : Vector :=
  Vector_3 (pz (r2_ R) - py (r3_ R)) (px (r3_ R) - pz (r1_ R))
           (py (r1_ R) - px (r2_ R)).

(** The rotation [rodriguez] returns when it does not throw. *)
Definition rodriguez_value (w : Vector) (theta : double) : Rot3 double :=
  match rodriguez true w theta with
  | Ok Rw => Rw
  | Throw _ => Rot3_identity
  end.

(** ** Readings of the spec's words, to compare with the code *)

(** "a diagonal entry of R": R11, R22 or R33 for [i] = 1, 2, 3. *)
Definition diagonal_entry (R : Rot3 double) (i : nat) : double :=
  match i with
  | 1%nat => m00 (matrix R)
  | 2%nat => m11 (matrix R)
  | _ => m22 (matrix R)
  end.

(** "the corresponding column of (I+R)". *)
Definition I_plus_R_column (R : Rot3 double) (i : nat) : Vector :=
  let S := Matrix_add I3 (matrix R) in
  match i with
  | 1%nat => Vector_3 (m00 S) (m10 S) (m20 S)
  | 2%nat => Vector_3 (m01 S) (m11 S) (m21 S)
  | _ => Vector_3 (m02 S) (m12 S) (m22 S)
  end.

(** "fixed priority order R33, then R22, else R11 — whichever is not itself
    ≈ −1": an entry counts as ≈ −1 when it is within 1e-10 of −1. *)
Definition half_turn_index (R : Rot3 double) : nat :=
  if Rgt_dec (Rabs (diagonal_entry R 3 + 1)) 1e-10 then 3%nat
  else if Rgt_dec (Rabs (diagonal_entry R 2 + 1)) 1e-10 then 2%nat
  else 1%nat.

(** "scaled by π/√(2+2·Rᵢᵢ)": the divisor and the scaled column. *)
Definition half_turn_divisor (R : Rot3 double) (i : nat) : double :=
  sqrt (2 + 2 * diagonal_entry R i).

Definition half_turn_axis (R : Rot3 double) (i : nat) : Vector :=
  Vector_scale (PI / half_turn_divisor R i) (I_plus_R_column R i).

(** "the naively composed product Rz(z)·Ry(y)·Rx(x)". *)
Definition Rz_Ry_Rx_composed (x y z : double) : Rot3 double :=
  Rot3_mul (Rot3_mul (Rz z) (Ry y)) (Rx x).

(** The two candidate reassemblies of [RQ]'s output. *)
Definition R_Rx_Ry_Rz (R : Matrix double) (xyz : Vector) : Matrix double :=
  Matrix_mul (Matrix_mul (Matrix_mul R (matrix (Rx (v0 xyz))))
                (matrix (Ry (v1 xyz)))) (matrix (Rz (v2 xyz))).

Definition R_Rz_Ry_Rx (R : Matrix double) (xyz : Vector) : Matrix double :=
  Matrix_mul (Matrix_mul (Matrix_mul R (matrix (Rz (v2 xyz))))
                (matrix (Ry (v1 xyz)))) (matrix (Rx (v0 xyz))).

(** ** Concrete inputs *)

(** The cyclic permutation matrix [Rz(π/2)·Rx(π/2)]: orthogonal, with
    determinant 1. *)
Definition A_cyclic : Matrix double := mkMatrix 0 0 1 1 0 0 0 1 0.

(** An axis pointing down and an angle one millionth short of a half turn. *)
Definition w_down : Vector := Vector_3 0 0 (- (1)).
Definition theta_near_PI : double := PI - 1e-6.

(** The tangent vector [theta_near_PI * w_down], of norm [theta_near_PI]. *)
Definition omega_near_PI : Vector := Vector_3 0 0 (- theta_near_PI).

(** An axis pointing up, and a quarter turn about it. *)
Definition w_up : Vector := Vector_3 0 0 1.
Definition omega_quarter : Vector := Vector_3 0 0 (PI / 2).

(** The half turn about the third axis, diag(−1,−1,1). *)
Definition R_half_turn : Rot3 double := Rot3_entries (-1) 0 0 0 (-1) 0 0 0 1.

(** ** The remaining operations of the class *)

(** [Rot3::compose], with its two optional Jacobian slots. *)
Definition compose (R R2 : Rot3 double) (H1 H2 : option (Matrix double))
  : Rot3 double * option (Matrix double) * option (Matrix double) :=
  let H1' := match H1 with Some _ => Some (transpose R2) | None => None end in
  let H2' := match H2 with Some _ => Some I3 | None => None end in
  (Rot3_mul R R2, H1', H2').

(** [Rot3::rotate] with its two optional Jacobian slots; the value is the
    one [rotate] gives. *)
Definition rotate_H (R : Rot3 double) (p : Point3 double)
    (H1 H2 : option (Matrix double))
  : Point3 double * option (Matrix double) * option (Matrix double) :=
  let H1' := match H1 with
             | Some _ =>
                 Some (Matrix_mul (matrix R)
                         (skewSymmetric3 (- px p) (- py p) (- pz p)))
             | None => None
             end in
  let H2' := match H2 with Some _ => Some (matrix R) | None => None end in
  (Point3_add
     (Point3_add (Point3_scale (r1_ R) (px p)) (Point3_scale (r2_ R) (py p)))
     (Point3_scale (r3_ R) (pz p)),
   H1', H2').


(** [Rot3::unrotate] *)
Definition unrotate (R : Rot3 double) (p : Point3 double)
    (H1 H2 : option (Matrix double))
  : Point3 double * option (Matrix double) * option (Matrix double) :=
  let q := mkPoint3
             (px (r1_ R) * px p + py (r1_ R) * py p + pz (r1_ R) * pz p)
             (px (r2_ R) * px p + py (r2_ R) * py p + pz (r2_ R) * pz p)
             (px (r3_ R) * px p + py (r3_ R) * py p + pz (r3_ R) * pz p) in
  let H1' := match H1 with
             | Some _ => Some (skewSymmetric3 (px q) (py q) (pz q))
             | None => None
             end in
  let H2' := match H2 with Some _ => Some (transpose R) | None => None end in
  (q, H1', H2').

(** [Rot3::xyz], [Rot3::ypr], [Rot3::rpy] *)
Definition xyz (R : Rot3 double) : Vector := snd (RQ (matrix R)).

Definition ypr (R : Rot3 double) : Vector :=
  let q := xyz R in Vector_3 (v2 q) (v1 q) (v0 q).

Definition rpy (R : Rot3 double) : Vector :=
  let q := xyz R in Vector_3 (v0 q) (v1 q) (v2 q).

(** ** Further predicates used in the statements *)

(** The determinant of the stored matrix. *)
Definition det (R : Rot3 double) : double := Matrix_det (matrix R).

(** A rotation: RᵗR = I and determinant +1. *)
Definition is_rotation (R : Rot3 double) : Prop := orthonormal R /\ det R = 1.

(** An upper-triangular matrix. *)
Definition upper_triangular (A : Matrix double) : Prop :=
  m10 A = 0 /\ m20 A = 0 /\ m21 A = 0.


(** ** Further concrete inputs *)

Definition zero_vector : Vector := Vector_3 0 0 0.
Definition p_123 : Point3 double := mkPoint3 1 2 3.

(** The quarter turn about the third axis, with its entries written out. *)
Definition R_quarter_turn : Rot3 double :=
  Rot3_entries 0 (-1) 0 1 0 0 0 0 1.

(** * Proof steps used throughout *)

(** Values of sine and cosine at the angles of the concrete inputs. *)
Create Rewrite HintDb trig_values.
#[local] Hint Rewrite cos_neg sin_neg cos_0 sin_0 cos_PI sin_PI cos_PI2 sin_PI2
  : trig_values.

(** Reads the entries of a matrix, the coordinates of a point or a vector and
    the columns of a rotation that is given by its constructor. *)
Ltac read_entries :=
  cbn [m00 m01 m02 m10 m11 m12 m20 m21 m22 px py pz r1_ r2_ r3_ v0 v1 v2
       fst snd matrix diagonal_entry].

(** Two rotations are equal when their nine scalars are. *)
Ltac rot3_ext := f_equal; f_equal.

(** * Storage layer: results *)

Section StorageFacts.
Context {D : Type} {neg : Negate D}.

(** C6.  [inverse] returns the rotation whose matrix is the transpose of
    [matrix R], whether or not a Jacobian slot is passed.  A slot that is
    passed holds [-matrix(R)] after the call, whatever it held before, and no
    slot appears when none was passed. *)
Theorem inverse_transpose_and_jacobian (R : Rot3 D) (old : Matrix D) :
  matrix (fst (inverse R None)) = Matrix_transposed (matrix R) /\
  matrix (fst (inverse R (Some old))) = Matrix_transposed (matrix R) /\
  snd (inverse R (Some old)) = Some (Matrix_opp (matrix R)) /\
  snd (inverse R None) = None.
Proof. repeat split. Qed.

(** C7.  [column] returns [r1_], [r2_], [r3_] for the indices 1, 2, 3 and
    throws [invalid_argument] for every other index, 4 among them.  The
    method is [const]: it is a function of [R] and builds no new rotation. *)
Theorem column_by_index (R : Rot3 D) (index : Z) :
  match index with
  | 1%Z => column R index = Ok (r1_ R)
  | 2%Z => column R index = Ok (r2_ R)
  | 3%Z => column R index = Ok (r3_ R)
  | _ => column R index =
         Throw (invalid_argument "Argument to Rot3::column must be 1, 2, or 3")
  end /\
  column R 4 =
    Throw (invalid_argument "Argument to Rot3::column must be 1, 2, or 3").
Proof.
  split; [| reflexivity].
  destruct index as [| p | p]; try reflexivity.
  destruct p as [[p | p |] | [p | p |] |]; try reflexivity;
    destruct p; reflexivity.
Qed.

(** C10.  [inverse] only permutes the nine stored scalars: applied twice it
    gives back [R] itself, for any scalar type and with or without Jacobian
    slots, and the matrix of [inverse R] is [transpose R]. *)
Theorem inverse_involutive (R : Rot3 D) (H1 H1' : option (Matrix D)) :
  fst (inverse (fst (inverse R H1)) H1') = R /\
  matrix (fst (inverse R H1)) = transpose R.
Proof.
  split; [| reflexivity].
  destruct R as [[] [] []]; reflexivity.
Qed.

End StorageFacts.

(** * Numerical layer: results *)

(** ** Matrix algebra *)

Lemma Matrix_mul_assoc (A B C : Matrix double) :
  Matrix_mul (Matrix_mul A B) C = Matrix_mul A (Matrix_mul B C).
Proof. unfold Matrix_mul; read_entries; f_equal; ring. Qed.

Lemma Matrix_mul_I3_r (A : Matrix double) : Matrix_mul A I3 = A.
Proof. destruct A; unfold Matrix_mul, I3; read_entries; f_equal; ring. Qed.

Lemma Matrix_mul_I3_l (A : Matrix double) : Matrix_mul I3 A = A.
Proof. destruct A; unfold Matrix_mul, I3; read_entries; f_equal; ring. Qed.

Lemma equal_with_abs_tol_refl (A : Matrix double) : equal_with_abs_tol A A 0.
Proof.
  unfold equal_with_abs_tol.
  repeat split; rewrite Rminus_diag, Rabs_R0; apply Rle_refl.
Qed.

Lemma sin_cos_square (t : double) : sin t * sin t + cos t * cos t = 1.
Proof. exact (sin2_cos2 t). Qed.

(** Each elementary rotation is undone by the one of the opposite angle. *)
Lemma Rx_undo (t : double) :
  Matrix_mul (matrix (Rx (- t))) (matrix (Rx t)) = I3.
Proof.
  pose proof (sin_cos_square t) as H.
  unfold Rx, Rot3_entries, matrix, Matrix_mul, I3; read_entries.
  rewrite cos_neg, sin_neg. f_equal; lra.
Qed.

Lemma Ry_undo (t : double) :
  Matrix_mul (matrix (Ry (- t))) (matrix (Ry t)) = I3.
Proof.
  pose proof (sin_cos_square t) as H.
  unfold Ry, Rot3_entries, matrix, Matrix_mul, I3; read_entries.
  rewrite cos_neg, sin_neg. f_equal; lra.
Qed.

Lemma Rz_undo (t : double) :
  Matrix_mul (matrix (Rz (- t))) (matrix (Rz t)) = I3.
Proof.
  pose proof (sin_cos_square t) as H.
  unfold Rz, Rot3_entries, matrix, Matrix_mul, I3; read_entries.
  rewrite cos_neg, sin_neg. f_equal; lra.
Qed.

(** ** The fused factory *)

(** C5.  [RzRyRx x y z] is the product [Rz(z)·Ry(y)·Rx(x)] of the three
    elementary factories: the two rotations have the same nine entries in
    real arithmetic, so [equals] holds between them with tolerance 0 and
    whatever separates them in floating point is rounding. *)
Theorem RzRyRx_is_composition (x y z : double) :
  RzRyRx x y z = Rz_Ry_Rx_composed x y z /\
  Rot3_equals (RzRyRx x y z) (Rz_Ry_Rx_composed x y z) 0.
Proof.
  assert (H : RzRyRx x y z = Rz_Ry_Rx_composed x y z).
  { unfold RzRyRx, Rz_Ry_Rx_composed, Rot3_mul, Rot3_columns, rotate, Rx, Ry, Rz,
      Rot3_entries, Point3_add, Point3_scale; read_entries.
    rot3_ext; ring. }
  split; [exact H |].
  rewrite H. apply equal_with_abs_tol_refl.
Qed.

(** ** RQ *)

(** C1, as the code has it.  [RQ A] returns [(R, (x, y, z))] with
    [A = R·Rz(z)·Ry(y)·Rx(x)], for every matrix [A]: [R] is [A] multiplied on
    the right by [Rx(-x)], [Ry(-y)], [Rz(-z)] in this order, so the angles
    come back in the opposite order.  The equation is exact in real
    arithmetic. *)
Theorem RQ_factorization (A : Matrix double) :
  R_Rz_Ry_Rx (fst (RQ A)) (snd (RQ A)) = A /\
  equal_with_abs_tol A (R_Rz_Ry_Rx (fst (RQ A)) (snd (RQ A))) 0.
Proof.
  assert (H : R_Rz_Ry_Rx (fst (RQ A)) (snd (RQ A)) = A).
  { unfold RQ, R_Rz_Ry_Rx. cbv zeta. read_entries.
    set (x := - atan2 _ _).
    set (B := Matrix_mul A _).
    set (y := - atan2 _ _).
    set (C := Matrix_mul B _).
    set (z := - atan2 _ _).
    rewrite (Matrix_mul_assoc C), Rz_undo, Matrix_mul_I3_r.
    unfold C. rewrite (Matrix_mul_assoc B), Ry_undo, Matrix_mul_I3_r.
    unfold B. rewrite (Matrix_mul_assoc A), Rx_undo, Matrix_mul_I3_r.
    reflexivity. }
  split; [exact H |].
  rewrite H. apply equal_with_abs_tol_refl.
Qed.

(** *** The run of RQ on [A_cyclic] *)

Lemma atan2_m1_0 : atan2 (- (1)) 0 = - (PI / 2).
Proof.
  unfold atan2.
  destruct (Rlt_dec 0 0) as [H | _]; [lra |].
  destruct (Rlt_dec 0 (- (1))) as [H | _]; [lra |].
  destruct (Rlt_dec (- (1)) 0) as [_ | H]; [reflexivity | lra].
Qed.

Lemma atan2_0_1 : atan2 0 1 = 0.
Proof.
  unfold atan2.
  destruct (Rlt_dec 0 1) as [_ | H]; [| lra].
  replace (0 / 1) with 0 by field. apply atan_0.
Qed.

Lemma Rx_quarter : matrix (Rx (PI / 2)) = mkMatrix 1 0 0 0 0 (- (1)) 0 1 0.
Proof.
  unfold Rx, Rot3_entries, matrix; read_entries.
  autorewrite with trig_values. reflexivity.
Qed.

Lemma Rx_minus_quarter :
  matrix (Rx (- (PI / 2))) = mkMatrix 1 0 0 0 0 1 0 (- (1)) 0.
Proof.
  unfold Rx, Rot3_entries, matrix; read_entries.
  autorewrite with trig_values. f_equal; ring.
Qed.

Lemma Ry_zero : matrix (Ry 0) = I3.
Proof.
  unfold Ry, I3, Rot3_entries, matrix; read_entries.
  autorewrite with trig_values. f_equal; ring.
Qed.

Lemma Rz_quarter : matrix (Rz (PI / 2)) = mkMatrix 0 (- (1)) 0 1 0 0 0 0 1.
Proof.
  unfold Rz, Rot3_entries, matrix; read_entries.
  autorewrite with trig_values. reflexivity.
Qed.

Lemma Rz_minus_quarter :
  matrix (Rz (- (PI / 2))) = mkMatrix 0 1 0 (- (1)) 0 0 0 0 1.
Proof.
  unfold Rz, Rot3_entries, matrix; read_entries.
  autorewrite with trig_values. f_equal; ring.
Qed.

Lemma A_cyclic_orthogonal :
  Matrix_mul (Matrix_transposed A_cyclic) A_cyclic = I3 /\
  Matrix_det A_cyclic = 1.
Proof.
  unfold Matrix_mul, Matrix_transposed, Matrix_det, A_cyclic, I3; read_entries.
  split; [f_equal; ring | ring].
Qed.

Lemma RQ_A_cyclic : RQ A_cyclic = (I3, Vector_3 (PI / 2) 0 (PI / 2)).
Proof.
  unfold RQ. cbv zeta.
  assert (Hx : - atan2 (- m21 A_cyclic) (m22 A_cyclic) = PI / 2).
  { unfold A_cyclic; read_entries. rewrite atan2_m1_0. ring. }
  rewrite Hx, Rx_minus_quarter.
  assert (HB : Matrix_mul A_cyclic (mkMatrix 1 0 0 0 0 1 0 (- (1)) 0)
               = mkMatrix 0 (- (1)) 0 1 0 0 0 0 1).
  { unfold Matrix_mul, A_cyclic; read_entries. f_equal; ring. }
  rewrite HB. read_entries.
  rewrite atan2_0_1, Ropp_0, Ropp_0, Ry_zero, Matrix_mul_I3_r. read_entries.
  rewrite atan2_m1_0, !Ropp_involutive, Rz_minus_quarter.
  f_equal. unfold Matrix_mul, I3; read_entries. f_equal; ring.
Qed.

(** C1, as the spec words it, fails.  [A_cyclic] is orthogonal with
    determinant 1; [RQ] returns the identity and the angles (π/2, 0, π/2);
    the product [R·Rx(x)·Ry(y)·Rz(z)] differs from [A_cyclic] by 1 in an
    entry, far beyond a tolerance of 0.5. *)
Lemma RQ_is_not_R_Rx_Ry_Rz :
  Matrix_mul (Matrix_transposed A_cyclic) A_cyclic = I3 /\
  Matrix_det A_cyclic = 1 /\
  RQ A_cyclic = (I3, Vector_3 (PI / 2) 0 (PI / 2)) /\
  ~ equal_with_abs_tol A_cyclic
      (R_Rx_Ry_Rz (fst (RQ A_cyclic)) (snd (RQ A_cyclic))) 0.5.
Proof.
  split; [exact (proj1 A_cyclic_orthogonal) |].
  split; [exact (proj2 A_cyclic_orthogonal) |].
  split; [exact RQ_A_cyclic |].
  rewrite RQ_A_cyclic. unfold R_Rx_Ry_Rz. read_entries.
  rewrite Rx_quarter, Ry_zero, Rz_quarter, Matrix_mul_I3_l, Matrix_mul_I3_r.
  unfold equal_with_abs_tol, Matrix_mul, A_cyclic; read_entries.
  intros (_ & H & _). revert H.
  match goal with |- Rabs ?e <= _ -> _ => replace e with 1 by ring end.
  rewrite Rabs_R1. lra.
Qed.

(** ** The axis-angle factory *)

Lemma rodriguez_unit (NDEBUG : bool) (w : Vector) (theta : double) :
  unit_length w -> rodriguez NDEBUG w theta = Ok (rodriguez_value w theta).
Proof.
  intros Hw. destruct NDEBUG; [reflexivity |].
  unfold rodriguez. cbv zeta. red in Hw.
  destruct (Rgt_dec _ _) as [H | _]; [| reflexivity].
  exfalso. rewrite Hw, Rminus_diag, Rabs_R0 in H. lra.
Qed.

Lemma trace_rodriguez (w : Vector) (theta : double) :
  unit_length w -> trace (rodriguez_value w theta) = 1 + 2 * cos theta.
Proof.
  unfold unit_length, trace, rodriguez_value, rodriguez, Rot3_entries.
  cbn [bind]; read_entries. intros Hw.
  replace (cos theta + (1 - cos theta) * (v0 w * v0 w) +
           (cos theta + (1 - cos theta) * (v1 w * v1 w)) +
           (cos theta + (1 - cos theta) * (v2 w * v2 w)))
    with (3 * cos theta +
          (1 - cos theta) * (v0 w * v0 w + v1 w * v1 w + v2 w * v2 w)) by ring.
  rewrite Hw. ring.
Qed.

Lemma vee_rodriguez (w : Vector) (theta : double) :
  vee (rodriguez_value w theta) = Vector_scale (2 * sin theta) w.
Proof.
  unfold vee, rodriguez_value, rodriguez, Rot3_entries, Vector_scale.
  cbn [bind]; read_entries. f_equal; ring.
Qed.

Lemma unit_length_w_up : unit_length w_up.
Proof. unfold unit_length, w_up; read_entries. ring. Qed.

Lemma unit_length_w_down : unit_length w_down.
Proof. unfold unit_length, w_down; read_entries. ring. Qed.

(** C8.  [rodriguez] throws [domain_error] exactly when the build is a
    debug build (NDEBUG not defined) and |‖axis‖² − 1| > 1e-9, and it throws
    nothing else.  A release build returns a rotation for every input, and
    a unit axis gets a rotation in either build. *)
Theorem rodriguez_domain_error (NDEBUG : bool) (w : Vector) (theta : double) :
  ((exists what, rodriguez NDEBUG w theta = Throw (domain_error what)) <->
   (NDEBUG = false /\
    Rabs (v0 w * v0 w + v1 w * v1 w + v2 w * v2 w - 1) > 1e-9)) /\
  ((exists e, rodriguez NDEBUG w theta = Throw e) <->
   (exists what, rodriguez NDEBUG w theta = Throw (domain_error what))) /\
  rodriguez true w theta = Ok (rodriguez_value w theta) /\
  (unit_length w -> rodriguez NDEBUG w theta = Ok (rodriguez_value w theta)).
Proof.
  split; [| split; [| split]].
  - destruct NDEBUG.
    + split; [intros (what & H); discriminate H | intros (H & _); discriminate H].
    + unfold rodriguez. cbv zeta.
      destruct (Rgt_dec _ _) as [H | H]; cbn [bind].
      * split; [intros _; split; [reflexivity | exact H] |].
        intros _; eexists; reflexivity.
      * split; [intros (what & Hw); discriminate Hw |].
        intros (_ & Hgt); contradiction.
  - split; [| intros (what & H); eexists; exact H].
    intros (e & H). destruct NDEBUG; [discriminate H |].
    revert H. unfold rodriguez. cbv zeta.
    destruct (Rgt_dec _ _) as [Hgt | Hgt]; cbn [bind]; intros H.
    + eexists; reflexivity.
    + discriminate H.
  - reflexivity.
  - apply rodriguez_unit.
Qed.

(** Witness for C8: the unit axis (0,0,1) in a debug build. *)
Lemma rodriguez_domain_error_witness :
  unit_length w_up /\
  rodriguez false w_up 0 = Ok (rodriguez_value w_up 0).
Proof.
  split; [exact unit_length_w_up |].
  exact (proj2 (proj2 (proj2 (rodriguez_domain_error false w_up 0)))
           unit_length_w_up).
Defined.

(** The half turn about the third axis. *)
Lemma rodriguez_w_up_PI : rodriguez_value w_up PI = R_half_turn.
Proof.
  unfold rodriguez_value, rodriguez, w_up, R_half_turn, Rot3_entries.
  cbn [bind]; read_entries.
  autorewrite with trig_values. rot3_ext; ring.
Qed.

(** ** Logmap, branch by branch *)

Lemma Logmap_half_turn (R : Rot3 double) :
  Rabs (trace R + 1) < 1e-10 ->
  Logmap R = half_turn_axis R (half_turn_index R).
Proof.
  intros Htr. unfold Logmap, half_turn_axis, half_turn_index, half_turn_divisor.
  cbv zeta. fold (trace R).
  destruct (Rlt_dec (Rabs (trace R + 1)) 1e-10) as [_ | n]; [| contradiction].
  read_entries.
  destruct (Rgt_dec (Rabs (pz (r3_ R) + 1)) 1e-10) as [H3 | H3];
    [| destruct (Rgt_dec (Rabs (py (r2_ R) + 1)) 1e-10) as [H2 | H2]];
    unfold I_plus_R_column, Matrix_add, I3, matrix, Vector_scale;
    read_entries; f_equal; ring.
Qed.

Lemma Logmap_generic (R : Rot3 double) :
  ~ Rabs (trace R + 1) < 1e-10 ->
  trace R - 3 < - 1e-7 ->
  Logmap R =
    Vector_scale
      (acos ((trace R - 1) / 2) / (2 * sin (acos ((trace R - 1) / 2))))
      (vee R).
Proof.
  intros Hpi Hgen. unfold Logmap. cbv zeta. fold (trace R). fold (vee R).
  destruct (Rlt_dec (Rabs (trace R + 1)) 1e-10) as [H | _]; [contradiction |].
  destruct (Rlt_dec (trace R - 3) (- 1e-7)) as [_ | H];
    [reflexivity | contradiction].
Qed.

Lemma Logmap_taylor (R : Rot3 double) :
  ~ Rabs (trace R + 1) < 1e-10 ->
  ~ trace R - 3 < - 1e-7 ->
  Logmap R = Vector_scale (0.5 - (trace R - 3) * (trace R - 3) / 12) (vee R).
Proof.
  intros Hpi Hgen. unfold Logmap. cbv zeta. fold (trace R). fold (vee R).
  destruct (Rlt_dec (Rabs (trace R + 1)) 1e-10) as [H | _]; [contradiction |].
  destruct (Rlt_dec (trace R - 3) (- 1e-7)) as [H | _];
    [contradiction | reflexivity].
Qed.

Lemma Logmap_identity : Logmap Rot3_identity = Vector_3 0 0 0.
Proof.
  rewrite Logmap_taylor.
  - unfold vee, Vector_scale, trace, Rot3_identity; read_entries.
    f_equal; ring.
  - unfold trace, Rot3_identity; read_entries.
    intros H. apply Rabs_def2 in H. lra.
  - unfold trace, Rot3_identity; read_entries. lra.
Qed.

(** ** The half-turn branch of Logmap *)

Lemma Rabs_le_between (x a : double) : Rabs x <= a -> - a <= x <= a.
Proof. unfold Rabs. destruct (Rcase_abs x); lra. Qed.

Lemma sqrt_4 : sqrt 4 = 2.
Proof. replace 4 with (2 * 2) by ring. apply sqrt_square. lra. Qed.

Lemma sqrt_gt (b v : double) : 0 <= b -> b * b < v -> b < sqrt v.
Proof.
  intros Hb Hv. rewrite <- (sqrt_square b Hb) at 1.
  apply sqrt_lt_1; nra.
Qed.

Lemma half_turn_index_3 (R : Rot3 double) :
  pz (r3_ R) = 1 -> half_turn_index R = 3%nat.
Proof.
  intros H. unfold half_turn_index; read_entries.
  rewrite H. destruct (Rgt_dec _ _) as [_ | Hn]; [reflexivity |].
  exfalso. apply Hn. rewrite Rabs_pos_eq; lra.
Qed.

Lemma trace_R_half_turn : Rabs (trace R_half_turn + 1) < 1e-10.
Proof.
  unfold trace, R_half_turn, Rot3_entries; read_entries.
  replace (-1 + -1 + 1 + 1) with 0 by ring. rewrite Rabs_R0. lra.
Qed.

Lemma orthonormal_R_half_turn : orthonormal R_half_turn.
Proof.
  unfold orthonormal, dot, R_half_turn, Rot3_entries; read_entries.
  repeat split; ring.
Qed.

(** A column of an orthonormal matrix has no coordinate below −1. *)
Lemma orthonormal_diagonal (R : Rot3 double) :
  orthonormal R -> -1 <= py (r2_ R) /\ -1 <= pz (r3_ R).
Proof.
  unfold orthonormal, dot. intros (_ & H2 & H3 & _). split; nra.
Qed.

(** C4.  When the trace is within 1e-10 of −1, [Logmap R] is the column of
    I+R picked by the first of R33, R22 that is more than 1e-10 away from −1,
    else by R11, scaled by π/√(2+2·Rᵢᵢ).  On [rodriguez (0,0,1) π], whose
    matrix is diag(−1,−1,1), the R33 branch runs and gives (0,0,π), in
    either build. *)
Theorem Logmap_half_turn_priority (NDEBUG : bool) (R : Rot3 double) :
  Rabs (trace R + 1) < 1e-10 ->
  Logmap R = half_turn_axis R (half_turn_index R) /\
  exists Rpi,
    rodriguez NDEBUG w_up PI = Ok Rpi /\
    matrix Rpi = mkMatrix (-1) 0 0 0 (-1) 0 0 0 1 /\
    half_turn_index Rpi = 3%nat /\
    Logmap Rpi = Vector_3 0 0 PI.
Proof.
  intros Htr. split; [exact (Logmap_half_turn R Htr) |].
  exists (rodriguez_value w_up PI).
  split; [apply rodriguez_unit, unit_length_w_up |].
  rewrite rodriguez_w_up_PI.
  assert (Hi : half_turn_index R_half_turn = 3%nat).
  { apply half_turn_index_3. reflexivity. }
  split; [reflexivity |]. split; [exact Hi |].
  rewrite (Logmap_half_turn _ trace_R_half_turn), Hi.
  unfold half_turn_axis, half_turn_divisor, I_plus_R_column, Matrix_add, I3,
    R_half_turn, Rot3_entries, Vector_scale; read_entries.
  replace (2 + 2 * 1) with 4 by ring. rewrite sqrt_4.
  f_equal; field.
Qed.

(** Witness for C4: the half turn diag(−1,−1,1), whose trace is −1. *)
Lemma Logmap_half_turn_priority_witness :
  Rabs (trace R_half_turn + 1) < 1e-10 /\
  Logmap R_half_turn = half_turn_axis R_half_turn (half_turn_index R_half_turn).
Proof.
  split; [exact trace_R_half_turn |].
  exact (proj1 (Logmap_half_turn_priority true R_half_turn trace_R_half_turn)).
Defined.

(** C9.  For an orthonormal [R] whose trace is within 1e-10 of −1, the
    divisor √(2+2·Rᵢᵢ) of the branch [Logmap] takes exceeds 1e-5.  The R33
    and R22 branches run only when their own entry is more than 1e-10 above
    −1; in the last branch R33 and R22 are within 1e-10 of −1, which with the
    trace puts R11 within 3e-10 of +1 and the divisor above 1.99. *)
Theorem Logmap_half_turn_divisor (R : Rot3 double) :
  orthonormal R ->
  Rabs (trace R + 1) < 1e-10 ->
  Logmap R =
    Vector_scale (PI / half_turn_divisor R (half_turn_index R))
      (I_plus_R_column R (half_turn_index R)) /\
  1e-5 < half_turn_divisor R (half_turn_index R) /\
  ((half_turn_index R = 3%nat /\ 1e-10 < diagonal_entry R 3 + 1) \/
   (half_turn_index R = 2%nat /\ 1e-10 < diagonal_entry R 2 + 1) \/
   (half_turn_index R = 1%nat /\
    Rabs (diagonal_entry R 3 + 1) <= 1e-10 /\
    Rabs (diagonal_entry R 2 + 1) <= 1e-10 /\
    Rabs (diagonal_entry R 1 - 1) < 3e-10 /\
    1.99 < half_turn_divisor R 1)).
Proof.
  intros HR Htr. split; [exact (Logmap_half_turn R Htr) |].
  destruct (orthonormal_diagonal R HR) as [H22 H33].
  apply Rabs_def2 in Htr. unfold trace in Htr.
  unfold half_turn_index, half_turn_divisor. read_entries.
  destruct (Rgt_dec (Rabs (pz (r3_ R) + 1)) 1e-10) as [G3 | G3];
    [| destruct (Rgt_dec (Rabs (py (r2_ R) + 1)) 1e-10) as [G2 | G2]];
    read_entries.
  - assert (1e-10 < pz (r3_ R) + 1).
    { rewrite Rabs_pos_eq in G3; lra. }
    split; [apply sqrt_gt; lra | left; split; [reflexivity | assumption]].
  - assert (1e-10 < py (r2_ R) + 1).
    { rewrite Rabs_pos_eq in G2; lra. }
    split; [apply sqrt_gt; lra |].
    right; left; split; [reflexivity | assumption].
  - apply Rnot_gt_le in G3, G2.
    pose proof (Rabs_le_between _ _ G3). pose proof (Rabs_le_between _ _ G2).
    assert (1.99 < sqrt (2 + 2 * px (r1_ R))) by (apply sqrt_gt; lra).
    split; [lra |]. right; right.
    repeat split; try assumption.
    apply Rabs_def1; lra.
Qed.

(** Witness for C9: the half turn diag(−1,−1,1). *)
Lemma Logmap_half_turn_divisor_witness :
  orthonormal R_half_turn /\
  Rabs (trace R_half_turn + 1) < 1e-10 /\
  1e-5 < half_turn_divisor R_half_turn (half_turn_index R_half_turn).
Proof.
  split; [exact orthonormal_R_half_turn |].
  split; [exact trace_R_half_turn |].
  exact (proj1 (proj2 (Logmap_half_turn_divisor R_half_turn
                         orthonormal_R_half_turn trace_R_half_turn))).
Defined.

(** ** Small-angle bounds *)

Lemma PI_gt_3 : 3 < PI.
Proof. pose proof PI2_3_2. lra. Qed.

Lemma cos_ge_quadratic (a : double) :
  0 <= a -> a <= 2 -> 1 - a * a / 2 <= cos a.
Proof.
  intros H0 H2.
  destruct (pre_cos_bound a 0) as [Hlb _]; [lra | lra |].
  unfold cos_approx, cos_term in Hlb. simpl in Hlb. lra.
Qed.

Lemma cos_le_quartic (a : double) :
  0 <= a -> a <= 2 -> cos a <= 1 - a * a / 2 + a * a * a * a / 24.
Proof.
  intros H0 H2.
  destruct (pre_cos_bound a 0) as [_ Hub]; [lra | lra |].
  unfold cos_approx, cos_term in Hub. simpl in Hub. lra.
Qed.

Lemma sin_ge_cubic (a : double) :
  0 <= a -> a <= PI -> a - a * a * a / 6 <= sin a.
Proof.
  intros H0 H2.
  destruct (sin_bound a 0 H0 H2) as [Hlb _].
  unfold sin_approx, sin_term in Hlb. simpl in Hlb. lra.
Qed.

Lemma sin_le_arg (a : double) : 0 <= a -> sin a <= a.
Proof.
  intros [H | <-].
  - left. now apply sin_lt_x.
  - rewrite sin_0. lra.
Qed.

(** An angle of [0, π) whose cosine is within 5e-8 of 1 is at most 1e-3. *)
Lemma small_angle (a : double) :
  0 <= a -> a < PI -> 1 - 5e-8 <= cos a -> a <= 1e-3.
Proof.
  intros H0 Hpi Hc.
  destruct (Rle_dec a 1e-3) as [H | H]; [exact H | exfalso].
  assert (Hlt : cos a < cos 1e-3).
  { pose proof PI_gt_3. apply cos_decreasing_1; lra. }
  pose proof (cos_le_quartic 1e-3). lra.
Qed.

(** With t = tr − 3 = 2·cos a − 2 in [−1e-7, 0], the surrogate magnitude
    0.5 − t²/12 times 2·sin a stays within 1e-9 of a. *)
Lemma taylor_error (a : double) :
  0 <= a -> a < PI -> - 1e-7 <= 2 * cos a - 2 ->
  Rabs ((0.5 - (2 * cos a - 2) * (2 * cos a - 2) / 12) * (2 * sin a) - a)
  <= 1e-9.
Proof.
  intros H0 Hpi Ht.
  assert (Ha : a <= 1e-3) by (apply small_angle; lra).
  pose proof (COS_bound a) as [_ Hc1].
  pose proof (sin_ge_cubic a H0 (Rlt_le _ _ Hpi)) as Hs1.
  pose proof (sin_le_arg a H0) as Hs2.
  set (t := 2 * cos a - 2) in *. set (s := sin a) in *.
  assert (Ht0 : t <= 0) by (unfold t; lra).
  clearbody t s.
  assert (Ht2 : 0 <= t * t <= 1e-14) by nra.
  assert (Ha2 : a * a <= 1e-6) by nra.
  assert (Ha3 : 0 <= a * a * a <= 1e-9) by nra.
  assert (Hs0 : 0 <= s) by nra.
  assert (Hts : 0 <= t * t * s <= 1e-14 * 1e-3) by nra.
  apply Rabs_le. split; nra.
Qed.

Lemma taylor_error_signed (theta : double) :
  Rabs theta < PI -> - 1e-7 <= 2 * cos theta - 2 ->
  Rabs ((0.5 - (2 * cos theta - 2) * (2 * cos theta - 2) / 12) * (2 * sin theta)
        - theta) <= 1e-9.
Proof.
  intros Hpi Ht. destruct (Rle_dec 0 theta) as [H0 | H0].
  - rewrite Rabs_pos_eq in Hpi by exact H0. now apply taylor_error.
  - assert (Hneg : theta < 0) by lra.
    rewrite Rabs_left in Hpi by exact Hneg.
    pose proof (taylor_error (- theta)) as H.
    rewrite cos_neg, sin_neg in H.
    rewrite <- Rabs_Ropp.
    match goal with |- Rabs ?e <= _ =>
      match type of H with _ -> _ -> _ -> Rabs ?e' <= _ =>
        replace e with e' by ring end end.
    apply H; lra.
Qed.

Lemma unit_length_coordinates (w : Vector) :
  unit_length w -> Rabs (v0 w) <= 1 /\ Rabs (v1 w) <= 1 /\ Rabs (v2 w) <= 1.
Proof.
  unfold unit_length. intros Hw.
  repeat split; apply Rabs_le; split; nra.
Qed.

Lemma scaled_error (E c : double) :
  Rabs E <= 1e-9 -> Rabs c <= 1 -> Rabs (E * c) <= 1e-9.
Proof.
  intros HE Hc. rewrite Rabs_mult.
  pose proof (Rabs_pos E). pose proof (Rabs_pos c). nra.
Qed.

Lemma Vector_equal_refl (v : Vector) (tol : double) :
  0 <= tol -> Vector_equal_with_abs_tol v v tol.
Proof.
  intros Ht. unfold Vector_equal_with_abs_tol.
  repeat split; rewrite Rminus_diag, Rabs_R0; exact Ht.
Qed.

(** ** Logmap after rodriguez *)

(** Outside the half-turn branch, [Logmap] gives back [theta * w] in real
    arithmetic: exactly through acos, within 1e-9 through the small-angle
    surrogate. *)
Lemma Logmap_rodriguez_close (w : Vector) (theta : double) :
  unit_length w -> Rabs theta < PI -> 1e-10 <= Rabs (2 + 2 * cos theta) ->
  (trace (rodriguez_value w theta) - 3 < - 1e-7 /\
   Logmap (rodriguez_value w theta) = Vector_scale theta w) \/
  (- 1e-7 <= trace (rodriguez_value w theta) - 3 /\
   Vector_equal_with_abs_tol (Logmap (rodriguez_value w theta))
     (Vector_scale theta w) 1e-9).
Proof.
  intros Hw Hth Hpi.
  pose proof (trace_rodriguez w theta Hw) as Htr.
  assert (Hnpi : ~ Rabs (trace (rodriguez_value w theta) + 1) < 1e-10).
  { rewrite Htr.
    replace (1 + 2 * cos theta + 1) with (2 + 2 * cos theta) by ring. lra. }
  destruct (Rlt_dec (trace (rodriguez_value w theta) - 3) (- 1e-7)) as [Hg | Hg].
  - left. split; [exact Hg |].
    rewrite (Logmap_generic _ Hnpi Hg), vee_rodriguez, Htr.
    replace ((1 + 2 * cos theta - 1) / 2) with (cos theta) by field.
    rewrite Htr in Hg.
    assert (Hne : theta <> 0).
    { intros ->. rewrite cos_0 in Hg. lra. }
    destruct (Rle_dec 0 theta) as [H0 | H0].
    + rewrite Rabs_pos_eq in Hth by exact H0.
      rewrite acos_cos by lra.
      assert (0 < sin theta) by (apply sin_gt_0; lra).
      unfold Vector_scale; read_entries. f_equal; field; lra.
    + rewrite Rabs_left in Hth by lra.
      rewrite <- (cos_neg theta), acos_cos by lra.
      rewrite sin_neg.
      assert (0 < sin (- theta)) by (apply sin_gt_0; lra).
      rewrite sin_neg in *.
      unfold Vector_scale; read_entries. f_equal; field; lra.
  - right. split; [lra |].
    rewrite (Logmap_taylor _ Hnpi Hg), vee_rodriguez, Htr.
    rewrite Htr in Hg.
    assert (HE := taylor_error_signed theta Hth).
    replace (1 + 2 * cos theta - 3) with (2 * cos theta - 2) by ring.
    destruct (unit_length_coordinates w Hw) as (Hx & Hy & Hz).
    unfold Vector_equal_with_abs_tol, Vector_scale; read_entries.
    repeat split;
      match goal with |- Rabs (?k * (?s * ?c) - theta * ?c) <= _ =>
        replace (k * (s * c) - theta * c) with ((k * s - theta) * c) by ring
      end; apply scaled_error; try assumption; apply HE; lra.
Qed.

(** A looser tolerance is met as well. *)
Lemma Vector_equal_weaken (v u : Vector) (tol tol' : double) :
  tol <= tol' ->
  Vector_equal_with_abs_tol v u tol -> Vector_equal_with_abs_tol v u tol'.
Proof.
  unfold Vector_equal_with_abs_tol. intros Ht (H0 & H1 & H2).
  repeat split; lra.
Qed.

(** C3, as the code has it.  For a unit axis [w] and |θ| < π such that the
    trace 1+2·cos θ of [rodriguez w θ] is at least 1e-10 away from −1 (so
    that [Logmap] stays out of its half-turn branch), [rodriguez] returns a
    rotation in either build and [Logmap] of it is approximately [θ·w], on
    the acos branch and on the small-angle branch alike: within 1e-3 in
    every coordinate, and within 1e-9 when |θ| ≤ 3.  The coarser bound is for
    the angles next to the half-turn guard, where acos and the division by
    2·sin θ are ill-conditioned.  [Logmap] of the identity is (0,0,0). *)
Theorem Logmap_rodriguez_round_trip
    (NDEBUG : bool) (w : Vector) (theta : double) :
  unit_length w ->
  Rabs theta < PI ->
  1e-10 <= Rabs (2 + 2 * cos theta) ->
  exists Rw,
    rodriguez NDEBUG w theta = Ok Rw /\
    trace Rw + 1 = 2 + 2 * cos theta /\
    Vector_equal_with_abs_tol (Logmap Rw) (Vector_scale theta w) 1e-3 /\
    (3 < Rabs theta \/
     Vector_equal_with_abs_tol (Logmap Rw) (Vector_scale theta w) 1e-9) /\
    Logmap Rot3_identity = Vector_3 0 0 0.
Proof.
  intros Hw Hth Hpi. exists (rodriguez_value w theta).
  split; [apply rodriguez_unit, Hw |].
  split; [rewrite (trace_rodriguez _ _ Hw); ring |].
  assert (Hclose : Vector_equal_with_abs_tol
                     (Logmap (rodriguez_value w theta))
                     (Vector_scale theta w) 1e-9).
  { destruct (Logmap_rodriguez_close w theta Hw Hth Hpi)
      as [(_ & Heq) | (_ & Hc)]; [| exact Hc].
    rewrite Heq. apply Vector_equal_refl. lra. }
  split; [apply (Vector_equal_weaken _ _ 1e-9); [lra | exact Hclose] |].
  split; [right; exact Hclose | apply Logmap_identity].
Qed.

Lemma quarter_turn_admissible :
  Rabs (PI / 2) < PI /\ 1e-10 <= Rabs (2 + 2 * cos (PI / 2)).
Proof.
  pose proof PI_gt_3. rewrite cos_PI2.
  split; rewrite Rabs_pos_eq; lra.
Qed.

(** Witness for C3: a quarter turn about (0,0,1), in a debug build. *)
Lemma Logmap_rodriguez_round_trip_witness :
  unit_length w_up /\ Rabs (PI / 2) < PI /\
  1e-10 <= Rabs (2 + 2 * cos (PI / 2)) /\
  exists Rw,
    rodriguez false w_up (PI / 2) = Ok Rw /\
    trace Rw + 1 = 2 + 2 * cos (PI / 2) /\
    Vector_equal_with_abs_tol (Logmap Rw) (Vector_scale (PI / 2) w_up) 1e-3 /\
    (3 < Rabs (PI / 2) \/
     Vector_equal_with_abs_tol (Logmap Rw) (Vector_scale (PI / 2) w_up) 1e-9)
    /\ Logmap Rot3_identity = Vector_3 0 0 0.
Proof.
  split; [exact unit_length_w_up |].
  split; [exact (proj1 quarter_turn_admissible) |].
  split; [exact (proj2 quarter_turn_admissible) |].
  exact (Logmap_rodriguez_round_trip false w_up (PI / 2) unit_length_w_up
           (proj1 quarter_turn_admissible) (proj2 quarter_turn_admissible)).
Defined.

(** *** One millionth short of a half turn *)

Lemma theta_near_PI_range : 0 < theta_near_PI < PI.
Proof. unfold theta_near_PI. pose proof PI_gt_3. lra. Qed.

Lemma cos_theta_near_PI : -1 <= cos theta_near_PI <= -1 + 5e-13.
Proof.
  unfold theta_near_PI. rewrite cos_minus, cos_PI, sin_PI.
  pose proof (cos_ge_quadratic 1e-6). pose proof (COS_bound 1e-6). lra.
Qed.

(** The trace is within 1e-12 of −1, the half-turn branch runs on R33 = 1
    and returns the axis pointing up, whatever the axis given. *)
Lemma Logmap_near_half_turn :
  Logmap (rodriguez_value w_down theta_near_PI) = Vector_3 0 0 PI.
Proof.
  pose proof cos_theta_near_PI as Hc.
  assert (H33 : pz (r3_ (rodriguez_value w_down theta_near_PI)) = 1).
  { unfold rodriguez_value, rodriguez, w_down, Rot3_entries.
    cbn [bind]; read_entries. ring. }
  rewrite Logmap_half_turn.
  - rewrite (half_turn_index_3 _ H33).
    unfold half_turn_axis, half_turn_divisor, I_plus_R_column, Matrix_add, I3.
    read_entries. rewrite H33.
    unfold rodriguez_value, rodriguez, w_down, Rot3_entries, Vector_scale.
    cbn [bind]; read_entries.
    replace (2 + 2 * 1) with 4 by ring. rewrite sqrt_4.
    f_equal; field.
  - rewrite (trace_rodriguez _ _ unit_length_w_down).
    apply Rabs_def1; lra.
Qed.

(** C3, as the spec words it, fails.  The axis (0,0,−1) has unit length and
    θ = π − 1e-6 is below π; [rodriguez] returns a rotation whose [Logmap] is
    (0,0,π), while θ·w is (0,0,−π+1e-6): the third coordinates are more than
    6 apart. *)
Lemma Logmap_rodriguez_fails_near_half_turn :
  unit_length w_down /\ Rabs theta_near_PI < PI /\
  rodriguez false w_down theta_near_PI =
    Ok (rodriguez_value w_down theta_near_PI) /\
  Logmap (rodriguez_value w_down theta_near_PI) = Vector_3 0 0 PI /\
  ~ Vector_equal_with_abs_tol
      (Logmap (rodriguez_value w_down theta_near_PI))
      (Vector_scale theta_near_PI w_down) 1.
Proof.
  pose proof theta_near_PI_range as Hr.
  split; [exact unit_length_w_down |].
  split; [rewrite Rabs_pos_eq; lra |].
  split; [apply rodriguez_unit, unit_length_w_down |].
  split; [exact Logmap_near_half_turn |].
  rewrite Logmap_near_half_turn.
  unfold Vector_equal_with_abs_tol, Vector_scale, w_down; read_entries.
  intros (_ & _ & H). apply Rabs_le_between in H.
  pose proof PI_gt_3. lra.
Qed.

(** ** Charts *)

(** *** Undoing the anchor *)

Lemma Rot3_inverse_mul (R : Rot3 double) :
  orthonormal R -> Rot3_mul (fst (inverse R None)) R = Rot3_identity.
Proof.
  destruct R as [[a b c] [d e f] [g h i]].
  unfold orthonormal, dot; read_entries.
  intros (H11 & H22 & H33 & H12 & H13 & H23).
  unfold Rot3_mul, Rot3_columns, rotate, Point3_add, Point3_scale,
    Rot3_identity, inverse, Rot3_entries; read_entries.
  rot3_ext; lra.
Qed.

Lemma Rot3_mul_assoc (A B C : Rot3 double) :
  Rot3_mul (Rot3_mul A B) C = Rot3_mul A (Rot3_mul B C).
Proof.
  unfold Rot3_mul, Rot3_columns, rotate, Point3_add, Point3_scale; read_entries.
  rot3_ext; ring.
Qed.

Lemma Rot3_mul_identity_l (A : Rot3 double) : Rot3_mul Rot3_identity A = A.
Proof.
  destruct A as [[] [] []].
  unfold Rot3_mul, Rot3_columns, rotate, Point3_add, Point3_scale,
    Rot3_identity; read_entries.
  rot3_ext; ring.
Qed.

Lemma orthonormal_identity : orthonormal Rot3_identity.
Proof.
  unfold orthonormal, dot, Rot3_identity; read_entries. repeat split; ring.
Qed.

(** For an orthonormal anchor, [between] recovers the increment. *)
Lemma between_default_undo (R E : Rot3 double) :
  orthonormal R -> between_default R (Rot3_mul R E) = E.
Proof.
  intros HR. unfold between_default.
  rewrite <- Rot3_mul_assoc, Rot3_inverse_mul by exact HR.
  apply Rot3_mul_identity_l.
Qed.

(** *** The Cayley charts *)

Lemma caley_denominator (x y z : double) : 4 + x * x + y * y + z * z <> 0.
Proof. nra. Qed.

Lemma caley_determinant (x y z : double) :
  32 * ((4 + x * x + y * y + z * z) * (4 + x * x + y * y + z * z)) <> 0.
Proof.
  pose proof (caley_denominator x y z) as Hn.
  apply Rmult_integral_contrapositive_currified; [lra |].
  apply Rmult_integral_contrapositive_currified; exact Hn.
Qed.

(** Closes the two conditions [field] leaves when it inverts the Cayley
    increment of [(x, y, z)]: the denominator 4+x²+y²+z² and the determinant
    of I + increment, cleared of denominators, are not zero. *)
Ltac caley_conditions x y z :=
  split;
  [ exact (caley_denominator x y z)
  | match goal with
    | |- ?P <> 0 =>
        replace P
          with (32 * ((4 + x * x + y * y + z * z) * (4 + x * x + y * y + z * z)))
          by ring;
        exact (caley_determinant x y z)
    end ].

Lemma localCoordinates_retract_CALEY
    (NDEBUG : bool) (R : Rot3 double) (omega : Vector) :
  orthonormal R ->
  exists T, retract NDEBUG R omega CALEY = Ok T /\
            localCoordinates R T CALEY = omega.
Proof.
  intros HR. eexists. split; [reflexivity |].
  unfold localCoordinates, between. read_entries.
  rewrite between_default_undo by exact HR.
  destruct omega as [x y z].
  unfold Vector_scale, Rot3_entries; read_entries.
  f_equal; field; caley_conditions x y z.
Qed.

(** The generic Cayley transform of −Ω/2 is the closed form of CALEY. *)
Lemma Cayley_skew (omega : Vector) :
  Rot3_of_Matrix (Cayley (Matrix_div (Matrix_opp (skewSymmetric omega)) 2)) =
  let x := v0 omega in let y := v1 omega in let z := v2 omega in
  let x2 := x * x in let y2 := y * y in let z2 := z * z in
  let xy := x * y in let xz := x * z in let yz := y * z in
  let f := 1 / (4 + x2 + y2 + z2) in let _2f := 2 * f in
  Rot3_entries
    ((4 + x2 - y2 - z2) * f) ((xy - 2 * z) * _2f) ((xz + 2 * y) * _2f)
    ((xy + 2 * z) * _2f) ((4 - x2 + y2 - z2) * f) ((yz - 2 * x) * _2f)
    ((xz - 2 * y) * _2f) ((yz + 2 * x) * _2f) ((4 - x2 - y2 + z2) * f).
Proof.
  destruct omega as [x y z].
  pose proof (caley_denominator x y z) as Hn.
  cbv [Cayley Matrix_inverse Matrix_det Matrix_mul Matrix_sub Matrix_add
       Matrix_div Matrix_opp skewSymmetric skewSymmetric3 I3 Rot3_of_Matrix
       Rot3_entries negate Negate_double
       m00 m01 m02 m10 m11 m12 m20 m21 m22 v0 v1 v2].
  rot3_ext; field; (split; [exact Hn |]);
    match goal with
    | |- ?P <> 0 =>
        replace P with (512 * (4 + x * x + y * y + z * z)) by ring
    end;
    (apply Rmult_integral_contrapositive_currified; [lra | exact Hn]).
Qed.

Lemma retract_SLOW_CALEY_is_CALEY
    (NDEBUG : bool) (R : Rot3 double) (omega : Vector) :
  retract NDEBUG R omega SLOW_CALEY = retract NDEBUG R omega CALEY.
Proof. unfold retract. rewrite Cayley_skew. reflexivity. Qed.

Lemma localCoordinates_retract_SLOW_CALEY
    (NDEBUG : bool) (R : Rot3 double) (omega : Vector) :
  orthonormal R ->
  exists T, retract NDEBUG R omega SLOW_CALEY = Ok T /\
            localCoordinates R T SLOW_CALEY = omega.
Proof.
  intros HR. rewrite retract_SLOW_CALEY_is_CALEY.
  eexists. split; [reflexivity |].
  unfold localCoordinates, between. read_entries.
  rewrite between_default_undo by exact HR.
  destruct omega as [x y z].
  cbv [Cayley Matrix_inverse Matrix_det Matrix_mul Matrix_sub Matrix_add
       I3 Vector_scale matrix Rot3_entries
       m00 m01 m02 m10 m11 m12 m20 m21 m22 px py pz r1_ r2_ r3_ v0 v1 v2].
  f_equal; field; caley_conditions x y z.
Qed.

(** *** The exponential chart *)

Lemma Vector_norm_nonneg (v : Vector) : 0 <= Vector_norm v.
Proof. apply sqrt_pos. Qed.

Lemma Vector_norm_square (v : Vector) :
  Vector_norm v * Vector_norm v = v0 v * v0 v + v1 v * v1 v + v2 v * v2 v.
Proof. unfold Vector_norm. apply sqrt_sqrt. nra. Qed.

Lemma coordinates_le_norm (v : Vector) :
  Rabs (v0 v) <= Vector_norm v /\ Rabs (v1 v) <= Vector_norm v /\
  Rabs (v2 v) <= Vector_norm v.
Proof.
  pose proof (Vector_norm_nonneg v) as H0.
  pose proof (Vector_norm_square v) as H2.
  repeat split; apply Rabs_le; split; nra.
Qed.

Lemma Vector_div_norm_unit (v : Vector) :
  0 < Vector_norm v -> unit_length (Vector_div v (Vector_norm v)).
Proof.
  intros Ht. pose proof (Vector_norm_square v) as H2.
  unfold unit_length, Vector_div; read_entries.
  set (t := Vector_norm v) in *.
  replace (v0 v / t * (v0 v / t) + v1 v / t * (v1 v / t) + v2 v / t * (v2 v / t))
    with ((v0 v * v0 v + v1 v * v1 v + v2 v * v2 v) / (t * t)) by (field; lra).
  rewrite <- H2. field. lra.
Qed.

Lemma Vector_scale_div (v : Vector) (t : double) :
  t <> 0 -> Vector_scale t (Vector_div v t) = v.
Proof.
  intros Ht. destruct v as [a b c].
  unfold Vector_scale, Vector_div; read_entries. f_equal; field; exact Ht.
Qed.

(** [Expmap] returns a rotation in either build, and [Logmap] of it is
    [omega] within 1e-9, as long as the half-turn branch is not entered. *)
Lemma Expmap_round_trip (NDEBUG : bool) (omega : Vector) :
  Vector_norm omega < PI ->
  1e-10 <= Rabs (2 + 2 * cos (Vector_norm omega)) ->
  exists E, Expmap NDEBUG omega = Ok E /\
            Vector_equal_with_abs_tol (Logmap E) omega 1e-9.
Proof.
  intros Hlt Hpi. unfold Expmap, rodriguez_vector. cbv zeta.
  pose proof (Vector_norm_nonneg omega) as H0.
  destruct (Rlt_dec (Vector_norm omega) 1e-10) as [Hs | Hs].
  - exists Rot3_identity. split; [reflexivity |].
    rewrite Logmap_identity.
    destruct (coordinates_le_norm omega) as (Hx & Hy & Hz).
    unfold Vector_equal_with_abs_tol; read_entries.
    repeat split; rewrite Rminus_0_l, Rabs_Ropp; lra.
  - assert (Ht : 0 < Vector_norm omega) by lra.
    pose proof (Vector_div_norm_unit omega Ht) as Hu.
    exists (rodriguez_value (Vector_div omega (Vector_norm omega))
              (Vector_norm omega)).
    split; [apply rodriguez_unit, Hu |].
    destruct (Logmap_rodriguez_close
                (Vector_div omega (Vector_norm omega)) (Vector_norm omega) Hu)
      as [(_ & Heq) | (_ & Hclose)]; try assumption.
    + rewrite Rabs_pos_eq; lra.
    + rewrite Heq, Vector_scale_div by lra. apply Vector_equal_refl. lra.
    + rewrite Vector_scale_div in Hclose by lra. exact Hclose.
Qed.

(** C2, as the code has it.  For an orthonormal anchor [R] and a tangent
    vector with ‖ω‖ < π (in EXPMAP mode moreover with the trace 1+2·cos‖ω‖
    of the increment at least 1e-10 away from −1, so that [Logmap] stays out
    of its half-turn branch), [retract] returns a rotation [T] in either
    build and [localCoordinates R T] is approximately [omega] again, in each
    of the three modes: within 1e-3 in every coordinate, and within 1e-9 in
    the two Cayley modes and in EXPMAP mode when ‖ω‖ ≤ 3. *)
Theorem localCoordinates_retract (NDEBUG : bool) (R : Rot3 double)
    (omega : Vector) (mode : CoordinatesMode) :
  orthonormal R ->
  Vector_norm omega < PI ->
  (mode = EXPMAP -> 1e-10 <= Rabs (2 + 2 * cos (Vector_norm omega))) ->
  exists T,
    retract NDEBUG R omega mode = Ok T /\
    Vector_equal_with_abs_tol (localCoordinates R T mode) omega 1e-3 /\
    ((mode = EXPMAP /\ 3 < Vector_norm omega) \/
     Vector_equal_with_abs_tol (localCoordinates R T mode) omega 1e-9).
Proof.
  intros HR Hlt Hexp.
  assert (H9 : exists T,
             retract NDEBUG R omega mode = Ok T /\
             Vector_equal_with_abs_tol (localCoordinates R T mode) omega 1e-9).
  { destruct mode.
    - destruct (Expmap_round_trip NDEBUG omega Hlt (Hexp eq_refl))
        as (E & HE & Hclose).
      exists (Rot3_mul R E). unfold retract. rewrite HE. cbn [bind].
      split; [reflexivity |].
      unfold localCoordinates, between. read_entries.
      rewrite between_default_undo by exact HR. exact Hclose.
    - destruct (localCoordinates_retract_CALEY NDEBUG R omega HR)
        as (T & HT & Heq).
      exists T. split; [exact HT |]. rewrite Heq.
      apply Vector_equal_refl; lra.
    - destruct (localCoordinates_retract_SLOW_CALEY NDEBUG R omega HR)
        as (T & HT & Heq).
      exists T. split; [exact HT |]. rewrite Heq.
      apply Vector_equal_refl; lra. }
  destruct H9 as (T & HT & Hclose). exists T.
  split; [exact HT |].
  split; [apply (Vector_equal_weaken _ _ 1e-9); [lra | exact Hclose] |].
  right; exact Hclose.
Qed.

Lemma Vector_norm_omega_quarter : Vector_norm omega_quarter = PI / 2.
Proof.
  unfold Vector_norm, omega_quarter; read_entries.
  replace (0 * 0 + 0 * 0 + PI / 2 * (PI / 2)) with (PI / 2 * (PI / 2)) by ring.
  apply sqrt_square. pose proof PI_gt_3. lra.
Qed.

Lemma omega_quarter_admissible :
  EXPMAP = EXPMAP ->
  Vector_norm omega_quarter < PI /\
  1e-10 <= Rabs (2 + 2 * cos (Vector_norm omega_quarter)).
Proof.
  intros _. rewrite Vector_norm_omega_quarter.
  pose proof PI_gt_3. rewrite cos_PI2.
  split; [lra | rewrite Rabs_pos_eq; lra].
Qed.

(** Witness for C2: the exponential chart at the identity, a quarter turn
    about (0,0,1), in a debug build. *)
Lemma localCoordinates_retract_witness :
  orthonormal Rot3_identity /\
  Vector_norm omega_quarter < PI /\
  (EXPMAP = EXPMAP ->
   1e-10 <= Rabs (2 + 2 * cos (Vector_norm omega_quarter))) /\
  exists T,
    retract false Rot3_identity omega_quarter EXPMAP = Ok T /\
    Vector_equal_with_abs_tol
      (localCoordinates Rot3_identity T EXPMAP) omega_quarter 1e-3 /\
    ((EXPMAP = EXPMAP /\ 3 < Vector_norm omega_quarter) \/
     Vector_equal_with_abs_tol
       (localCoordinates Rot3_identity T EXPMAP) omega_quarter 1e-9).
Proof.
  split; [exact orthonormal_identity |].
  split; [exact (proj1 (omega_quarter_admissible eq_refl)) |].
  split; [exact (fun e => proj2 (omega_quarter_admissible e)) |].
  exact (localCoordinates_retract false Rot3_identity omega_quarter EXPMAP
           orthonormal_identity (proj1 (omega_quarter_admissible eq_refl))
           (fun e => proj2 (omega_quarter_admissible e))).
Defined.

(** *** The exponential chart one millionth short of a half turn *)

Lemma Vector_norm_omega_near_PI : Vector_norm omega_near_PI = theta_near_PI.
Proof.
  pose proof theta_near_PI_range.
  unfold Vector_norm, omega_near_PI; read_entries.
  replace (0 * 0 + 0 * 0 + - theta_near_PI * - theta_near_PI)
    with (theta_near_PI * theta_near_PI) by ring.
  apply sqrt_square. lra.
Qed.

Lemma Expmap_omega_near_PI (NDEBUG : bool) :
  Expmap NDEBUG omega_near_PI = Ok (rodriguez_value w_down theta_near_PI).
Proof.
  pose proof theta_near_PI_range as Hr.
  unfold Expmap, rodriguez_vector. cbv zeta.
  rewrite Vector_norm_omega_near_PI.
  destruct (Rlt_dec theta_near_PI 1e-10) as [Hs | _].
  - exfalso. unfold theta_near_PI in Hs. pose proof PI_gt_3. lra.
  - replace (Vector_div omega_near_PI theta_near_PI) with w_down.
    + apply rodriguez_unit, unit_length_w_down.
    + unfold Vector_div, omega_near_PI, w_down; read_entries.
      f_equal; field; lra.
Qed.

(** C2, as the spec words it, fails.  The identity is orthonormal and
    ω = (0,0,−(π−1e-6)) has norm below π; in EXPMAP mode [retract] returns a
    rotation [T] and [localCoordinates] of [T] is (0,0,π): its third
    coordinate is more than 6 away from that of ω. *)
Lemma localCoordinates_retract_fails_near_half_turn :
  orthonormal Rot3_identity /\
  Vector_norm omega_near_PI < PI /\
  exists T,
    retract false Rot3_identity omega_near_PI EXPMAP = Ok T /\
    localCoordinates Rot3_identity T EXPMAP = Vector_3 0 0 PI /\
    ~ Vector_equal_with_abs_tol
        (localCoordinates Rot3_identity T EXPMAP) omega_near_PI 1.
Proof.
  pose proof theta_near_PI_range as Hr.
  split; [exact orthonormal_identity |].
  split; [rewrite Vector_norm_omega_near_PI; lra |].
  exists (Rot3_mul Rot3_identity (rodriguez_value w_down theta_near_PI)).
  split; [unfold retract; rewrite Expmap_omega_near_PI; reflexivity |].
  unfold localCoordinates, between. read_entries.
  rewrite between_default_undo by exact orthonormal_identity.
  rewrite Logmap_near_half_turn.
  split; [reflexivity |].
  unfold Vector_equal_with_abs_tol, omega_near_PI; read_entries.
  intros (_ & _ & H). apply Rabs_le_between in H.
  pose proof PI_gt_3. lra.
Qed.

(** * Further results on the rest of the class *)

(** ** The class invariant *)

Lemma rotate_dot (R : Rot3 double) (p q : Point3 double) :
  orthonormal R -> dot (rotate R p) (rotate R q) = dot p q.
Proof.
  destruct R as [[a b c] [d e f] [g h i]], p as [p1 p2 p3], q as [q1 q2 q3].
  unfold orthonormal, dot, rotate, Point3_add, Point3_scale; read_entries.
  intros (H11 & H22 & H33 & H12 & H13 & H23).
  nsatz.
Qed.

Lemma det_Rot3_mul (A B : Rot3 double) :
  det (Rot3_mul A B) = det A * det B.
Proof.
  unfold det, Matrix_det, Rot3_mul, Rot3_columns, rotate, Point3_add,
    Point3_scale; read_entries. ring.
Qed.

Lemma orthonormal_Rot3_mul (A B : Rot3 double) :
  orthonormal A -> orthonormal B -> orthonormal (Rot3_mul A B).
Proof.
  intros HA (H11 & H22 & H33 & H12 & H13 & H23).
  unfold orthonormal, Rot3_mul, Rot3_columns; read_entries.
  rewrite !(rotate_dot A) by exact HA. repeat split; assumption.
Qed.

(** The rows of an orthonormal matrix are orthonormal too. *)
Lemma orthonormal_rows (R : Rot3 double) :
  orthonormal R -> orthonormal (fst (inverse R None)).
Proof.
  destruct R as [[a b c] [d e f] [g h i]].
  unfold orthonormal, dot, inverse, Rot3_entries; read_entries.
  intros (H11 & H22 & H33 & H12 & H13 & H23).
  repeat split; nsatz.
Qed.

Lemma det_inverse (R : Rot3 double) (H1 : option (Matrix double)) :
  det (fst (inverse R H1)) = det R.
Proof.
  unfold det, Matrix_det, inverse, Rot3_entries; read_entries. ring.
Qed.

Lemma inverse_slot_irrelevant (R : Rot3 double) (H1 : option (Matrix double)) :
  fst (inverse R H1) = fst (inverse R None).
Proof. reflexivity. Qed.

Lemma is_rotation_identity : is_rotation Rot3_identity.
Proof.
  split; [exact orthonormal_identity |].
  unfold det, Matrix_det, Rot3_identity; read_entries. ring.
Qed.

Lemma is_rotation_R_half_turn : is_rotation R_half_turn.
Proof.
  split; [exact orthonormal_R_half_turn |].
  unfold det, Matrix_det, R_half_turn, Rot3_entries; read_entries. ring.
Qed.

Lemma is_rotation_Rot3_mul (A B : Rot3 double) :
  is_rotation A -> is_rotation B -> is_rotation (Rot3_mul A B).
Proof.
  intros [HA HdA] [HB HdB]. split.
  - apply orthonormal_Rot3_mul; assumption.
  - rewrite det_Rot3_mul, HdA, HdB. ring.
Qed.

Lemma is_rotation_inverse (R : Rot3 double) :
  is_rotation R -> is_rotation (fst (inverse R None)).
Proof.
  intros [HR Hd].
  split; [apply orthonormal_rows, HR | rewrite det_inverse; exact Hd].
Qed.

Lemma rodriguez_value_is_rotation (w : Vector) (theta : double) :
  unit_length w -> is_rotation (rodriguez_value w theta).
Proof.
  pose proof (sin_cos_square theta) as Ht.
  destruct w as [wx wy wz].
  unfold unit_length, is_rotation, orthonormal, det, Matrix_det, dot,
    rodriguez_value, rodriguez, Rot3_entries; cbn [bind]; read_entries.
  intros Hw. repeat split; nsatz.
Qed.

(** X1.  [Rx], [Ry] and [Rz] build a rotation for every angle: the columns
    are orthonormal and the determinant is 1. *)
Theorem elementary_rotations_are_rotations (t : double) :
  is_rotation (Rx t) /\ is_rotation (Ry t) /\ is_rotation (Rz t).
Proof.
  pose proof (sin_cos_square t) as H.
  unfold is_rotation, orthonormal, det, Matrix_det, dot, Rx, Ry, Rz,
    Rot3_entries; read_entries.
  repeat split; lra.
Qed.

(** X2.  [RzRyRx] builds a rotation for every triple of angles. *)
Theorem RzRyRx_is_rotation (x y z : double) : is_rotation (RzRyRx x y z).
Proof.
  pose proof (sin_cos_square x) as Hx.
  pose proof (sin_cos_square y) as Hy.
  pose proof (sin_cos_square z) as Hz.
  unfold is_rotation, orthonormal, det, Matrix_det, dot, RzRyRx, Rot3_entries.
  cbv zeta; read_entries.
  repeat split; nsatz.
Qed.

(** X3.  For a unit axis, [rodriguez] returns in either build, and what it
    returns is a rotation, for every angle. *)
Theorem rodriguez_is_rotation (NDEBUG : bool) (w : Vector) (theta : double) :
  unit_length w ->
  exists Rw, rodriguez NDEBUG w theta = Ok Rw /\ is_rotation Rw.
Proof.
  intros Hw. exists (rodriguez_value w theta).
  split; [apply rodriguez_unit, Hw | apply rodriguez_value_is_rotation, Hw].
Qed.

(** Witness for X3: the axis (0,0,1) and a quarter turn, in a debug build. *)
Lemma rodriguez_is_rotation_witness :
  unit_length w_up /\
  exists Rw, rodriguez false w_up (PI / 2) = Ok Rw /\ is_rotation Rw.
Proof.
  split; [exact unit_length_w_up |].
  exact (rodriguez_is_rotation false w_up (PI / 2) unit_length_w_up).
Defined.

(** X4.  The product of two rotations, by [operator*] or by [compose] with
    any Jacobian slots, is a rotation; determinants multiply. *)
Theorem Rot3_mul_is_rotation (A B : Rot3 double)
    (H1 H2 : option (Matrix double)) :
  is_rotation A -> is_rotation B ->
  is_rotation (Rot3_mul A B) /\
  is_rotation (fst (fst (compose A B H1 H2))) /\
  det (Rot3_mul A B) = det A * det B.
Proof.
  intros HA HB.
  split; [apply is_rotation_Rot3_mul; assumption |].
  split; [apply is_rotation_Rot3_mul; assumption | apply det_Rot3_mul].
Qed.

(** Witness for X4: the half turn diag(−1,−1,1) times the identity. *)
Lemma Rot3_mul_is_rotation_witness :
  is_rotation R_half_turn /\ is_rotation Rot3_identity /\
  is_rotation (Rot3_mul R_half_turn Rot3_identity).
Proof.
  split; [exact is_rotation_R_half_turn |].
  split; [exact is_rotation_identity |].
  exact (proj1 (Rot3_mul_is_rotation R_half_turn Rot3_identity None None
                  is_rotation_R_half_turn is_rotation_identity)).
Defined.

(** ** Group laws *)

Lemma Rot3_mul_identity_r (A : Rot3 double) : Rot3_mul A Rot3_identity = A.
Proof.
  destruct A as [[] [] []].
  unfold Rot3_mul, Rot3_columns, rotate, Point3_add, Point3_scale,
    Rot3_identity; read_entries.
  rot3_ext; ring.
Qed.

Lemma Rot3_mul_inverse (R : Rot3 double) :
  orthonormal R -> Rot3_mul R (fst (inverse R None)) = Rot3_identity.
Proof.
  intros HR. pose proof (orthonormal_rows R HR) as Hrows. revert Hrows.
  destruct R as [[a b c] [d e f] [g h i]].
  unfold orthonormal, dot, inverse, Rot3_entries; read_entries.
  intros (H11 & H22 & H33 & H12 & H13 & H23).
  unfold Rot3_mul, Rot3_columns, rotate, Point3_add, Point3_scale,
    Rot3_identity; read_entries.
  rot3_ext; lra.
Qed.

Lemma inverse_Rot3_mul (A B : Rot3 double) :
  fst (inverse (Rot3_mul A B) None) =
  Rot3_mul (fst (inverse B None)) (fst (inverse A None)).
Proof.
  unfold inverse, Rot3_mul, Rot3_columns, rotate, Point3_add, Point3_scale,
    Rot3_entries; read_entries.
  rot3_ext; ring.
Qed.

Lemma inverse_inverse (R : Rot3 double) :
  fst (inverse (fst (inverse R None)) None) = R.
Proof. destruct R as [[] [] []]; reflexivity. Qed.

(** X5.  For a rotation, [inverse] is the inverse of the group: it cancels
    [R] on both sides and is a rotation itself, with or without a Jacobian
    slot. *)
Theorem inverse_is_group_inverse
    (R : Rot3 double) (H1 : option (Matrix double)) :
  is_rotation R ->
  Rot3_mul (fst (inverse R H1)) R = Rot3_identity /\
  Rot3_mul R (fst (inverse R H1)) = Rot3_identity /\
  is_rotation (fst (inverse R H1)).
Proof.
  intros HR. rewrite inverse_slot_irrelevant.
  split; [apply Rot3_inverse_mul, HR |].
  split; [apply Rot3_mul_inverse, HR | apply is_rotation_inverse, HR].
Qed.

(** Witness for X5: the half turn diag(−1,−1,1). *)
Lemma inverse_is_group_inverse_witness :
  is_rotation R_half_turn /\
  Rot3_mul (fst (inverse R_half_turn None)) R_half_turn = Rot3_identity.
Proof.
  split; [exact is_rotation_R_half_turn |].
  exact (proj1 (inverse_is_group_inverse R_half_turn None
                  is_rotation_R_half_turn)).
Defined.


(** ** The action on points *)

Lemma rotate_H_value (R : Rot3 double) (p : Point3 double)
    (H1 H2 : option (Matrix double)) :
  fst (fst (rotate_H R p H1 H2)) = rotate R p.
Proof. reflexivity. Qed.

Lemma unrotate_value (R : Rot3 double) (p : Point3 double)
    (H1 H2 : option (Matrix double)) :
  fst (fst (unrotate R p H1 H2)) = rotate (fst (inverse R None)) p.
Proof.
  unfold unrotate, rotate, inverse, Rot3_entries, Point3_add, Point3_scale;
    read_entries.
  f_equal; ring.
Qed.

Lemma rotate_Rot3_mul (A B : Rot3 double) (p : Point3 double) :
  rotate (Rot3_mul A B) p = rotate A (rotate B p).
Proof.
  destruct p as [p1 p2 p3].
  unfold Rot3_mul, Rot3_columns, rotate, Point3_add, Point3_scale; read_entries.
  f_equal; ring.
Qed.

Lemma rotate_identity (p : Point3 double) : rotate Rot3_identity p = p.
Proof.
  destruct p as [p1 p2 p3].
  unfold rotate, Point3_add, Point3_scale, Rot3_identity; read_entries.
  f_equal; ring.
Qed.


(** X8.  [unrotate] by [R] is [rotate] by [inverse R], for every stored
    matrix and whatever slots are passed to the three calls. *)
Theorem unrotate_is_rotate_by_inverse (R : Rot3 double) (p : Point3 double)
    (H1 H2 H3 H4 H5 : option (Matrix double)) :
  fst (fst (unrotate R p H1 H2)) =
  fst (fst (rotate_H (fst (inverse R H3)) p H4 H5)).
Proof. rewrite rotate_H_value. apply unrotate_value. Qed.

(** X9.  For an orthonormal [R], [unrotate] undoes [rotate] and [rotate]
    undoes [unrotate]. *)
Theorem unrotate_rotate (R : Rot3 double) (p : Point3 double)
    (H1 H2 : option (Matrix double)) :
  orthonormal R ->
  fst (fst (unrotate R (fst (fst (rotate_H R p H1 H2))) H1 H2)) = p /\
  fst (fst (rotate_H R (fst (fst (unrotate R p H1 H2))) H1 H2)) = p.
Proof.
  intros HR. rewrite !rotate_H_value, !unrotate_value.
  rewrite <- !rotate_Rot3_mul, Rot3_inverse_mul, Rot3_mul_inverse by exact HR.
  split; apply rotate_identity.
Qed.

(** Witness for X9: the half turn diag(−1,−1,1) and the point (1,2,3). *)
Lemma unrotate_rotate_witness :
  orthonormal R_half_turn /\
  fst (fst (unrotate R_half_turn
              (fst (fst (rotate_H R_half_turn p_123 None None))) None None))
  = p_123.
Proof.
  split; [exact orthonormal_R_half_turn |].
  exact (proj1 (unrotate_rotate R_half_turn p_123 None None
                  orthonormal_R_half_turn)).
Defined.

(** X10.  For an orthonormal [R], [rotate] and [unrotate] keep the dot
    product of any two points, hence lengths and angles. *)
Theorem rotate_is_isometry (R : Rot3 double) (p q : Point3 double)
    (H1 H2 : option (Matrix double)) :
  orthonormal R ->
  dot (fst (fst (rotate_H R p H1 H2))) (fst (fst (rotate_H R q H1 H2)))
    = dot p q /\
  dot (fst (fst (unrotate R p H1 H2))) (fst (fst (unrotate R q H1 H2)))
    = dot p q.
Proof.
  intros HR. rewrite !rotate_H_value, !unrotate_value.
  split; [apply rotate_dot, HR | apply rotate_dot, orthonormal_rows, HR].
Qed.

(** Witness for X10: the half turn diag(−1,−1,1) and the point (1,2,3). *)
Lemma rotate_is_isometry_witness :
  orthonormal R_half_turn /\
  dot (fst (fst (rotate_H R_half_turn p_123 None None)))
      (fst (fst (rotate_H R_half_turn p_123 None None))) = dot p_123 p_123.
Proof.
  split; [exact orthonormal_R_half_turn |].
  exact (proj1 (rotate_is_isometry R_half_turn p_123 p_123 None None
                  orthonormal_R_half_turn)).
Defined.

(** ** The axis-angle factory, continued *)

(** X11.  About the coordinate axes [rodriguez] is the elementary factory:
    axis (1,0,0) gives [Rx], (0,1,0) gives [Ry], (0,0,1) gives [Rz], for
    every angle and in either build. *)
Theorem rodriguez_about_coordinate_axes (NDEBUG : bool) (theta : double) :
  rodriguez NDEBUG (Vector_3 1 0 0) theta = Ok (Rx theta) /\
  rodriguez NDEBUG (Vector_3 0 1 0) theta = Ok (Ry theta) /\
  rodriguez NDEBUG (Vector_3 0 0 1) theta = Ok (Rz theta).
Proof.
  repeat split;
    (rewrite rodriguez_unit by (unfold unit_length; read_entries; ring));
    f_equal;
    unfold rodriguez_value, rodriguez, Rx, Ry, Rz, Rot3_entries;
    cbn [bind]; read_entries; rot3_ext; ring.
Qed.


(** X13.  Each elementary factory turns the sum of two angles into the
    product of the two rotations, and angle 0 into the identity. *)
Theorem elementary_rotations_add (a b : double) :
  Rot3_mul (Rx a) (Rx b) = Rx (a + b) /\
  Rot3_mul (Ry a) (Ry b) = Ry (a + b) /\
  Rot3_mul (Rz a) (Rz b) = Rz (a + b) /\
  Rx 0 = Rot3_identity /\ Ry 0 = Rot3_identity /\ Rz 0 = Rot3_identity.
Proof.
  unfold Rx, Ry, Rz, Rot3_mul, Rot3_columns, rotate, Point3_add, Point3_scale,
    Rot3_entries, Rot3_identity; read_entries.
  rewrite cos_plus, sin_plus, cos_0, sin_0.
  repeat split; rot3_ext; ring.
Qed.

Lemma rodriguez_vector_rotation (NDEBUG : bool) (w : Vector) :
  exists Rw, rodriguez_vector NDEBUG w = Ok Rw /\ is_rotation Rw.
Proof.
  unfold rodriguez_vector. cbv zeta.
  destruct (Rlt_dec (Vector_norm w) 1e-10) as [Hs | Hs].
  - exists Rot3_identity. split; [reflexivity | exact is_rotation_identity].
  - assert (Ht : 0 < Vector_norm w) by lra.
    pose proof (Vector_div_norm_unit w Ht) as Hu.
    eexists. split; [apply rodriguez_unit, Hu |].
    apply rodriguez_value_is_rotation, Hu.
Qed.


Lemma omega_quarter_bounded : Vector_norm omega_quarter <= 100.
Proof. rewrite Vector_norm_omega_quarter. pose proof PI_4. lra. Qed.


(** ** Charts, continued *)

Lemma caley_increment_is_rotation (x y z : double) :
  is_rotation
    (let x2 := x * x in let y2 := y * y in let z2 := z * z in
     let xy := x * y in let xz := x * z in let yz := y * z in
     let f := 1 / (4 + x2 + y2 + z2) in let _2f := 2 * f in
     Rot3_entries
       ((4 + x2 - y2 - z2) * f) ((xy - 2 * z) * _2f) ((xz + 2 * y) * _2f)
       ((xy + 2 * z) * _2f) ((4 - x2 + y2 - z2) * f) ((yz - 2 * x) * _2f)
       ((xz - 2 * y) * _2f) ((yz + 2 * x) * _2f) ((4 - x2 - y2 + z2) * f)).
Proof.
  pose proof (caley_denominator x y z) as Hn.
  unfold is_rotation, orthonormal, det, Matrix_det, dot, Rot3_entries.
  cbv zeta; read_entries.
  repeat split; field; exact Hn.
Qed.

(** X15.  [retract] keeps the class invariant: anchored at a rotation and
    given a tangent vector of norm at most 100, it returns in each of the
    three modes and in either build, and what it returns is a rotation.  The
    bound keeps the norm and the squares of the coordinates in range and the
    generic Cayley transform of SLOW_CALEY well-conditioned. *)
Theorem retract_is_rotation (NDEBUG : bool) (R : Rot3 double)
    (omega : Vector) (mode : CoordinatesMode) :
  is_rotation R ->
  Vector_norm omega <= 100 ->
  exists T, retract NDEBUG R omega mode = Ok T /\ is_rotation T.
Proof.
  intros HR _.
  assert (HC : exists T, retract NDEBUG R omega CALEY = Ok T /\ is_rotation T).
  { eexists. split; [reflexivity |].
    apply is_rotation_Rot3_mul; [exact HR |].
    apply (caley_increment_is_rotation (v0 omega) (v1 omega) (v2 omega)). }
  destruct mode.
  - destruct (rodriguez_vector_rotation NDEBUG omega) as (E & HE & HrE).
    exists (Rot3_mul R E). unfold retract, Expmap. rewrite HE. cbn [bind].
    split; [reflexivity | apply is_rotation_Rot3_mul; assumption].
  - exact HC.
  - rewrite retract_SLOW_CALEY_is_CALEY. exact HC.
Qed.

(** Witness for X15: the half turn diag(−1,−1,1), moved by a quarter turn
    in the exponential chart, in a debug build. *)
Lemma retract_is_rotation_witness :
  is_rotation R_half_turn /\
  Vector_norm omega_quarter <= 100 /\
  exists T, retract false R_half_turn omega_quarter EXPMAP = Ok T /\
            is_rotation T.
Proof.
  split; [exact is_rotation_R_half_turn |].
  split; [exact omega_quarter_bounded |].
  exact (retract_is_rotation false R_half_turn omega_quarter EXPMAP
           is_rotation_R_half_turn omega_quarter_bounded).
Defined.

Lemma Vector_norm_zero : Vector_norm zero_vector = 0.
Proof.
  unfold Vector_norm, zero_vector; read_entries.
  replace (0 * 0 + 0 * 0 + 0 * 0) with 0 by ring. apply sqrt_0.
Qed.

Lemma retract_zero (NDEBUG : bool) (R : Rot3 double) (mode : CoordinatesMode) :
  retract NDEBUG R zero_vector mode = Ok R.
Proof.
  assert (HC : retract NDEBUG R zero_vector CALEY = Ok R).
  { unfold retract, zero_vector; cbv zeta; read_entries. f_equal.
    rewrite <- (Rot3_mul_identity_r R) at 2. f_equal.
    unfold Rot3_entries, Rot3_identity. rot3_ext; field. }
  destruct mode.
  - unfold retract, Expmap, rodriguez_vector. cbv zeta.
    rewrite Vector_norm_zero.
    destruct (Rlt_dec 0 1e-10) as [_ | H]; [| exfalso; lra].
    cbn [bind]. rewrite Rot3_mul_identity_r. reflexivity.
  - exact HC.
  - rewrite retract_SLOW_CALEY_is_CALEY. exact HC.
Qed.

(** X16.  In each mode the zero tangent vector is the anchor: [retract]
    by (0,0,0) returns [R] itself, and for an orthonormal [R] the local
    coordinates of [R] at [R] are (0,0,0), exactly. *)
Theorem retract_zero_is_anchor (NDEBUG : bool) (R : Rot3 double)
    (mode : CoordinatesMode) :
  orthonormal R ->
  retract NDEBUG R zero_vector mode = Ok R /\
  localCoordinates R R mode = zero_vector.
Proof.
  intros HR. split; [apply retract_zero |].
  assert (HB : between_default R R = Rot3_identity).
  { unfold between_default. apply Rot3_inverse_mul, HR. }
  unfold localCoordinates, between; read_entries. rewrite HB.
  destruct mode.
  - apply Logmap_identity.
  - unfold Rot3_identity, Vector_scale, zero_vector; read_entries.
    f_equal; field.
  - cbv [Cayley Matrix_inverse Matrix_det Matrix_mul Matrix_sub Matrix_add
         I3 Vector_scale matrix Rot3_identity zero_vector
         m00 m01 m02 m10 m11 m12 m20 m21 m22 px py pz r1_ r2_ r3_ v0 v1 v2].
    f_equal; field.
Qed.

(** Witness for X16: the half turn diag(−1,−1,1) in the CALEY chart. *)
Lemma retract_zero_is_anchor_witness :
  orthonormal R_half_turn /\
  retract false R_half_turn zero_vector CALEY = Ok R_half_turn /\
  localCoordinates R_half_turn R_half_turn CALEY = zero_vector.
Proof.
  split; [exact orthonormal_R_half_turn |].
  exact (retract_zero_is_anchor false R_half_turn CALEY
           orthonormal_R_half_turn).
Defined.

(** On a rotation the closed form of CALEY and the generic Cayley transform
    read the same coordinates. *)
Lemma caley_forms_agree (B : Rot3 double) :
  is_rotation B ->
  (let A := matrix B in
   let a := m00 A in let b := m01 A in let c := m02 A in
   let d := m10 A in let e := m11 A in let f := m12 A in
   let g := m20 A in let h := m21 A in let i := m22 A in
   let di := d * i in let ce := c * e in let cd := c * d in
   let fg := f * g in
   let M := 1 + e - f * h + i + e * i in
   let K := 2 / (cd * h + M + a * M - g * (c + ce) - b * (d + di - fg)) in
   let x := (a * f - cd + f) * K in
   let y := (b * f - ce - c) * K in
   let z := (fg - di - d) * K in
   Vector_scale (- (2)) (Vector_3 x y z)) =
  (let Omega := Cayley (matrix B) in
   Vector_scale (- (2)) (Vector_3 (m21 Omega) (m02 Omega) (m10 Omega))).
Proof.
  destruct B as [[a d g] [b e h] [c f i]].
  unfold is_rotation, orthonormal, det, Matrix_det, dot; read_entries.
  intros ((H11 & H22 & H33 & H12 & H13 & H23) & Hd).
  cbv [Cayley Matrix_inverse Matrix_det Matrix_mul Matrix_sub Matrix_add
       I3 Vector_scale matrix
       m00 m01 m02 m10 m11 m12 m20 m21 m22 px py pz r1_ r2_ r3_ v0 v1 v2].
  set (Dc := (1 + a) * ((1 + e) * (1 + i) - f * h)
             - b * (d * (1 + i) - f * g) + c * (d * h - (1 + e) * g)).
  repeat match goal with
         | |- context [_ / ?X] =>
             lazymatch X with
             | Dc => fail
             | _ => replace X with Dc by (unfold Dc; ring)
             end
         end.
  unfold Rdiv. generalize (/ Dc). clear Dc. intros D.
  assert (Hc1 : a * f - c * d = - h) by nsatz.
  assert (Hc2 : b * g - a * h = f) by nsatz.
  f_equal; [| ring | ring].
  replace (a * f - c * d + f) with (f - h) by lra.
  match goal with
  | |- _ = ?rhs =>
      replace rhs with (- (2) * (2 * (b * g - a * h - h) * D)) by ring
  end.
  rewrite Hc2. ring.
Qed.

Lemma is_rotation_between_default (R T : Rot3 double) :
  is_rotation R -> is_rotation T -> is_rotation (between_default R T).
Proof.
  intros HR HT. unfold between_default.
  apply is_rotation_Rot3_mul; [apply is_rotation_inverse, HR | exact HT].
Qed.

Lemma is_rotation_R_quarter_turn : is_rotation R_quarter_turn.
Proof.
  unfold is_rotation, orthonormal, det, Matrix_det, dot, R_quarter_turn,
    Rot3_entries; read_entries.
  repeat split; ring.
Qed.

Lemma between_identity_quarter_turn :
  fst (fst (between Rot3_identity R_quarter_turn None None)) = R_quarter_turn.
Proof.
  unfold between, between_default, Rot3_mul, Rot3_columns, rotate, Point3_add,
    Point3_scale, inverse, Rot3_identity, R_quarter_turn, Rot3_entries;
    read_entries.
  rot3_ext; ring.
Qed.

(** X17.  The two Cayley modes are one chart.  For a tangent vector of norm
    at most 100, [retract] returns the same rotation in SLOW_CALEY as in
    CALEY; and for two rotations at most a third of a turn apart, that is
    with the trace of [between R T] at least 0, [localCoordinates] returns
    the same vector in both modes.  The two bounds keep the matrices that
    the two modes invert away from the singular ones (a half turn between
    [R] and [T] makes both modes divide by zero). *)
Theorem Cayley_modes_agree
    (NDEBUG : bool) (R T : Rot3 double) (omega : Vector) :
  is_rotation R -> is_rotation T ->
  Vector_norm omega <= 100 ->
  0 <= trace (fst (fst (between R T None None))) ->
  retract NDEBUG R omega SLOW_CALEY = retract NDEBUG R omega CALEY /\
  localCoordinates R T SLOW_CALEY = localCoordinates R T CALEY.
Proof.
  intros HR HT _ _. split; [apply retract_SLOW_CALEY_is_CALEY |].
  unfold localCoordinates, between; read_entries.
  symmetry. apply caley_forms_agree, is_rotation_between_default; assumption.
Qed.

(** Witness for X17: from the identity to the quarter turn about the third
    axis, where both modes give (0,0,2), and a tangent vector of norm π/2. *)
Lemma Cayley_modes_agree_witness :
  is_rotation Rot3_identity /\ is_rotation R_quarter_turn /\
  Vector_norm omega_quarter <= 100 /\
  0 <= trace (fst (fst (between Rot3_identity R_quarter_turn None None))) /\
  localCoordinates Rot3_identity R_quarter_turn CALEY = Vector_3 0 0 2 /\
  retract false Rot3_identity omega_quarter SLOW_CALEY =
    retract false Rot3_identity omega_quarter CALEY /\
  localCoordinates Rot3_identity R_quarter_turn SLOW_CALEY =
    localCoordinates Rot3_identity R_quarter_turn CALEY.
Proof.
  assert (Htr : 0 <= trace (fst (fst (between Rot3_identity R_quarter_turn
                                        None None)))).
  { rewrite between_identity_quarter_turn.
    unfold trace, R_quarter_turn, Rot3_entries; read_entries. lra. }
  split; [exact is_rotation_identity |].
  split; [exact is_rotation_R_quarter_turn |].
  split; [exact omega_quarter_bounded |].
  split; [exact Htr |].
  split.
  - unfold localCoordinates. rewrite between_identity_quarter_turn.
    unfold R_quarter_turn, Rot3_entries, Vector_scale; cbv zeta; read_entries.
    f_equal; field.
  - exact (Cayley_modes_agree false Rot3_identity R_quarter_turn omega_quarter
             is_rotation_identity is_rotation_R_quarter_turn
             omega_quarter_bounded Htr).
Defined.

(** ** between *)

(** X18.  [between] read backwards is the inverse: for arbitrary stored
    matrices, [inverse (between R1 R2)] is [between R2 R1], and the Jacobian
    [between R1 R2] writes in its first slot is minus the matrix of
    [between R2 R1]. *)
Theorem between_antisymmetric (R1 R2 : Rot3 double) (old : Matrix double)
    (H2 : option (Matrix double)) :
  fst (inverse (fst (fst (between R1 R2 None None))) None) =
    fst (fst (between R2 R1 None None)) /\
  snd (fst (between R1 R2 (Some old) H2)) =
    Some (Matrix_opp (matrix (fst (fst (between R2 R1 None None))))).
Proof.
  unfold between, between_default; read_entries.
  rewrite inverse_Rot3_mul, inverse_inverse. split; reflexivity.
Qed.

(** X19.  For an orthonormal [R1], [between] is the difference that
    [compose] adds back: [R1 * between(R1, R2) = R2],
    [between(R1, R1 * R2) = R2] and [between(R1, R1)] is the identity. *)
Theorem between_recovers (R1 R2 : Rot3 double)
    (H1 H2 : option (Matrix double)) :
  orthonormal R1 ->
  fst (fst (compose R1 (fst (fst (between R1 R2 H1 H2))) H1 H2)) = R2 /\
  fst (fst (between R1 R1 H1 H2)) = Rot3_identity /\
  fst (fst (between R1 (fst (fst (compose R1 R2 H1 H2))) H1 H2)) = R2.
Proof.
  intros HR. unfold compose, between, between_default; read_entries.
  rewrite <- !Rot3_mul_assoc, Rot3_mul_inverse, Rot3_inverse_mul by exact HR.
  rewrite Rot3_mul_identity_l. repeat split.
Qed.

(** Witness for X19: from the half turn diag(−1,−1,1) to the identity. *)
Lemma between_recovers_witness :
  orthonormal R_half_turn /\
  fst (fst (compose R_half_turn
              (fst (fst (between R_half_turn Rot3_identity None None)))
              None None)) = Rot3_identity.
Proof.
  split; [exact orthonormal_R_half_turn |].
  exact (proj1 (between_recovers R_half_turn Rot3_identity None None
                  orthonormal_R_half_turn)).
Defined.

(** ** Logmap, continued *)







Lemma half_turn_radicand_pos (R : Rot3 double) :
  orthonormal R -> Rabs (trace R + 1) < 1e-10 ->
  0 < 2 + 2 * diagonal_entry R (half_turn_index R).
Proof.
  intros HR Htr.
  destruct (orthonormal_diagonal R HR) as [H22 H33].
  apply Rabs_def2 in Htr. unfold trace in Htr.
  unfold half_turn_index. read_entries.
  destruct (Rgt_dec (Rabs (pz (r3_ R) + 1)) 1e-10) as [G3 | G3];
    [| destruct (Rgt_dec (Rabs (py (r2_ R) + 1)) 1e-10) as [G2 | G2]];
    read_entries.
  - rewrite Rabs_pos_eq in G3; lra.
  - rewrite Rabs_pos_eq in G2; lra.
  - apply Rnot_gt_le in G3, G2.
    pose proof (Rabs_le_between _ _ G3). pose proof (Rabs_le_between _ _ G2).
    lra.
Qed.

Lemma I_plus_R_column_square (R : Rot3 double) (i : nat) :
  orthonormal R ->
  v0 (I_plus_R_column R i) * v0 (I_plus_R_column R i) +
  v1 (I_plus_R_column R i) * v1 (I_plus_R_column R i) +
  v2 (I_plus_R_column R i) * v2 (I_plus_R_column R i) =
  2 + 2 * diagonal_entry R i.
Proof.
  unfold orthonormal, dot. intros (H11 & H22 & H33 & _).
  destruct i as [| [| [| i]]];
    unfold I_plus_R_column, Matrix_add, I3; read_entries; lra.
Qed.

(** X21.  In the half-turn branch [Logmap] of an orthonormal matrix has
    norm exactly π, whichever column is picked. *)
Theorem Logmap_half_turn_norm (R : Rot3 double) :
  orthonormal R -> Rabs (trace R + 1) < 1e-10 ->
  Vector_norm (Logmap R) = PI.
Proof.
  intros HR Htr. rewrite (Logmap_half_turn R Htr).
  pose proof (half_turn_radicand_pos R HR Htr) as Hpos.
  pose proof (I_plus_R_column_square R (half_turn_index R) HR) as Hsq.
  unfold half_turn_axis, half_turn_divisor, Vector_norm, Vector_scale.
  read_entries.
  set (i := half_turn_index R) in *. set (v := I_plus_R_column R i) in *.
  set (r := 2 + 2 * diagonal_entry R i) in *.
  pose proof (sqrt_lt_R0 r Hpos) as Hs. pose proof (sqrt_sqrt r (Rlt_le _ _ Hpos)) as Hss.
  replace (PI / sqrt r * v0 v * (PI / sqrt r * v0 v) +
           PI / sqrt r * v1 v * (PI / sqrt r * v1 v) +
           PI / sqrt r * v2 v * (PI / sqrt r * v2 v))
    with (PI * PI * ((v0 v * v0 v + v1 v * v1 v + v2 v * v2 v) / (sqrt r * sqrt r)))
    by (field; lra).
  rewrite Hsq, Hss. replace (PI * PI * (r / r)) with (PI * PI) by (field; lra).
  apply sqrt_square. pose proof PI_RGT_0. lra.
Qed.

(** Witness for X21: the half turn diag(−1,−1,1). *)
Lemma Logmap_half_turn_norm_witness :
  orthonormal R_half_turn /\ Rabs (trace R_half_turn + 1) < 1e-10 /\
  Vector_norm (Logmap R_half_turn) = PI.
Proof.
  split; [exact orthonormal_R_half_turn |].
  split; [exact trace_R_half_turn |].
  exact (Logmap_half_turn_norm R_half_turn orthonormal_R_half_turn
           trace_R_half_turn).
Defined.

(** ** atan2 *)

Lemma sin_atan (u : double) : sin (atan u) = u * cos (atan u).
Proof.
  pose proof (tan_atan u) as Ht. unfold tan in Ht.
  assert (Hc : 0 < cos (atan u)).
  { destruct (atan_bound u). apply cos_gt_0; lra. }
  rewrite <- Ht at 2. field. lra.
Qed.

Lemma sin_minus_PI (t : double) : sin (t - PI) = - sin t.
Proof. rewrite sin_minus, cos_PI, sin_PI. ring. Qed.

Lemma cos_minus_PI (t : double) : cos (t - PI) = - cos t.
Proof. rewrite cos_minus, cos_PI, sin_PI. ring. Qed.

(** The angle [atan2 y x] points along [(x, y)]: the cross product of
    [(x, y)] with [(cos, sin)] of the angle is zero, for every [x] and [y]. *)
Lemma atan2_cross (y x : double) :
  x * sin (atan2 y x) = y * cos (atan2 y x).
Proof.
  unfold atan2.
  destruct (Rlt_dec 0 x) as [Hx | Hx].
  - rewrite sin_atan. field. lra.
  - destruct (Rlt_dec x 0) as [Hx' | Hx'].
    + destruct (Rle_dec 0 y) as [Hy | Hy].
      * rewrite neg_sin, neg_cos, sin_atan. field. lra.
      * rewrite sin_minus_PI, cos_minus_PI, sin_atan. field. lra.
    + assert (x = 0) by lra. subst x.
      destruct (Rlt_dec 0 y) as [Hy | Hy]; [rewrite cos_PI2; ring |].
      destruct (Rlt_dec y 0) as [Hy' | Hy'].
      * rewrite cos_neg, cos_PI2. ring.
      * assert (y = 0) by lra. subst y. ring.
Qed.

(** [atan2] recovers the angle of a point given in polar form. *)
Lemma atan2_polar (r t : double) :
  0 < r -> - PI < t <= PI -> atan2 (r * sin t) (r * cos t) = t.
Proof.
  intros Hr [Hlo Hhi]. pose proof PI_RGT_0 as HPI. unfold atan2.
  assert (Htan : forall s, cos s <> 0 -> r * sin s / (r * cos s) = tan s).
  { intros s Hs. unfold tan. field. split; lra. }
  destruct (Rlt_dec t (- (PI / 2))) as [H1 | H1].
  { (* t in (-PI, -PI/2) *)
    assert (Hc : cos t < 0).
    { rewrite <- cos_neg. apply cos_lt_0; lra. }
    assert (Hs : sin t < 0) by (apply sin_lt_0_var; lra).
    destruct (Rlt_dec 0 (r * cos t)) as [H | _]; [nra |].
    destruct (Rlt_dec (r * cos t) 0) as [_ | H]; [| nra].
    destruct (Rle_dec 0 (r * sin t)) as [H | _]; [nra |].
    rewrite Htan by lra.
    replace (tan t) with (tan (t + PI))
      by (unfold tan; rewrite neg_sin, neg_cos; field; lra).
    rewrite atan_tan by lra. ring. }
  destruct (Req_dec t (- (PI / 2))) as [H2 | H2].
  { subst t. rewrite cos_neg, sin_neg, cos_PI2, sin_PI2.
    replace (r * 0) with 0 by ring.
    destruct (Rlt_dec 0 0) as [H | _]; [lra |].
    destruct (Rlt_dec 0 (r * - (1))) as [H | _]; [lra |].
    destruct (Rlt_dec (r * - (1)) 0) as [_ | H]; [reflexivity | lra]. }
  destruct (Rlt_dec t (PI / 2)) as [H3 | H3].
  { (* t in (-PI/2, PI/2) *)
    assert (Hc : 0 < cos t) by (apply cos_gt_0; lra).
    destruct (Rlt_dec 0 (r * cos t)) as [_ | H]; [| nra].
    rewrite Htan by lra. apply atan_tan. lra. }
  destruct (Req_dec t (PI / 2)) as [H4 | H4].
  { subst t. rewrite cos_PI2, sin_PI2.
    replace (r * 0) with 0 by ring.
    destruct (Rlt_dec 0 0) as [H | _]; [lra |].
    destruct (Rlt_dec 0 (r * 1)) as [_ | H]; [reflexivity | lra]. }
  (* t in (PI/2, PI] *)
  assert (Hc : cos t < 0) by (apply cos_lt_0; lra).
  assert (Hs : 0 <= sin t) by (apply sin_ge_0; lra).
  destruct (Rlt_dec 0 (r * cos t)) as [H | _]; [nra |].
  destruct (Rlt_dec (r * cos t) 0) as [_ | H]; [| nra].
  destruct (Rle_dec 0 (r * sin t)) as [_ | H]; [| nra].
  rewrite Htan by lra.
  replace (tan t) with (tan (t - PI))
    by (unfold tan; rewrite sin_minus_PI, cos_minus_PI; field; lra).
  rewrite atan_tan by lra. ring.
Qed.

Lemma atan2_range (y x : double) : - PI < atan2 y x <= PI.
Proof.
  pose proof PI_RGT_0 as HPI. unfold atan2.
  destruct (Rlt_dec 0 x) as [Hx | Hx].
  - destruct (atan_bound (y / x)). lra.
  - destruct (Rlt_dec x 0) as [Hx' | Hx'].
    + destruct (atan_bound (y / x)) as [Hlo Hhi].
      destruct (Rle_dec 0 y) as [Hy | Hy].
      * assert (Hle : atan (y / x) <= 0).
        { rewrite <- atan_0.
          destruct (Req_dec y 0) as [-> | Hne].
          - unfold Rdiv. rewrite Rmult_0_l. apply Rle_refl.
          - left. apply atan_increasing.
            apply Ropp_lt_cancel. rewrite Ropp_0.
            replace (- (y / x)) with (y * / (- x)) by (field; lra).
            apply Rmult_lt_0_compat; [lra | apply Rinv_0_lt_compat; lra]. }
        lra.
      * assert (Hgt : 0 < atan (y / x)).
        { rewrite <- atan_0. apply atan_increasing.
          replace (y / x) with ((- y) * / (- x)) by (field; lra).
          apply Rmult_lt_0_compat; [lra | apply Rinv_0_lt_compat; lra]. }
        lra.
    + destruct (Rlt_dec 0 y); [lra |].
      destruct (Rlt_dec y 0); lra.
Qed.

(** ** RQ, continued *)

(** X22.  For every matrix [A], the matrix [RQ] returns is upper
    triangular: the three rotations cancel the entries (2,1), (2,0) and
    (1,0) in turn. *)
Theorem RQ_upper_triangular (A : Matrix double) :
  upper_triangular (fst (RQ A)).
Proof.
  unfold RQ, upper_triangular. cbv zeta. read_entries.
  rewrite !Ropp_involutive.
  set (u := atan2 (- m21 A) (m22 A)).
  pose proof (atan2_cross (- m21 A) (m22 A)) as Hu. fold u in Hu.
  set (B := Matrix_mul A (matrix (Rx u))).
  assert (HB21 : m21 B = 0).
  { unfold B, Matrix_mul, Rx, Rot3_entries; read_entries. lra. }
  set (s := atan2 (m20 B) (m22 B)).
  pose proof (atan2_cross (m20 B) (m22 B)) as Hs. fold s in Hs.
  set (C := Matrix_mul B (matrix (Ry s))).
  assert (HC20 : m20 C = 0).
  { unfold C, Matrix_mul, Ry, Rot3_entries; read_entries. lra. }
  assert (HC21 : m21 C = 0).
  { unfold C, Matrix_mul, Ry, Rot3_entries; read_entries. lra. }
  set (t := atan2 (- m10 C) (m11 C)).
  pose proof (atan2_cross (- m10 C) (m11 C)) as Ht. fold t in Ht.
  unfold Matrix_mul at 1 2 3, Rz, Rot3_entries; read_entries.
  rewrite HC20, HC21. repeat split; lra.
Qed.

(** The angle [atan2 y x] points along [(x, y)], not against it. *)
Lemma atan2_dot_nonneg (y x : double) :
  0 <= x * cos (atan2 y x) + y * sin (atan2 y x).
Proof.
  unfold atan2.
  assert (Hc : forall u, 0 < cos (atan u)).
  { intros u. destruct (atan_bound u). apply cos_gt_0; lra. }
  destruct (Rlt_dec 0 x) as [Hx | Hx].
  - rewrite sin_atan. specialize (Hc (y / x)).
    replace (x * cos (atan (y / x)) + y * (y / x * cos (atan (y / x))))
      with ((x * x + y * y) * (cos (atan (y / x)) * / x)) by (field; lra).
    apply Rmult_le_pos; [nra |].
    apply Rmult_le_pos; [lra | left; apply Rinv_0_lt_compat; exact Hx].
  - destruct (Rlt_dec x 0) as [Hx' | Hx'].
    + specialize (Hc (y / x)).
      assert (Hgoal : 0 <= - (x * cos (atan (y / x))
                             + y * (y / x * cos (atan (y / x))))).
      { replace (- (x * cos (atan (y / x)) + y * (y / x * cos (atan (y / x)))))
          with ((x * x + y * y) * (cos (atan (y / x)) * / (- x)))
          by (field; lra).
        apply Rmult_le_pos; [nra |].
        apply Rmult_le_pos; [lra | left; apply Rinv_0_lt_compat; lra]. }
      destruct (Rle_dec 0 y) as [Hy | Hy].
      * rewrite neg_sin, neg_cos, sin_atan. lra.
      * rewrite sin_minus_PI, cos_minus_PI, sin_atan. lra.
    + assert (x = 0) by lra. subst x.
      destruct (Rlt_dec 0 y) as [Hy | Hy]; [rewrite sin_PI2; lra |].
      destruct (Rlt_dec y 0) as [Hy' | Hy'].
      * rewrite sin_neg, sin_PI2. lra.
      * rewrite sin_0. lra.
Qed.

(** To the right of the vertical axis the angle is at most a quarter turn. *)
Lemma atan2_range_right (y x : double) :
  0 <= x -> - (PI / 2) <= atan2 y x <= PI / 2.
Proof.
  intros Hx. pose proof PI_RGT_0 as HPI. unfold atan2.
  destruct (Rlt_dec 0 x) as [H | H].
  - destruct (atan_bound (y / x)). lra.
  - destruct (Rlt_dec x 0) as [H' | H']; [lra |].
    destruct (Rlt_dec 0 y); [lra |].
    destruct (Rlt_dec y 0); lra.
Qed.

(** X23.  The angles [RQ] returns, for every matrix: the first and the
    third lie between −π and π, and the second between −π/2 and π/2, since
    the first rotation leaves a corner entry (2,2) that is not negative. *)
Theorem RQ_angles_range (A : Matrix double) :
  - PI <= v0 (snd (RQ A)) <= PI /\
  - (PI / 2) <= v1 (snd (RQ A)) <= PI / 2 /\
  - PI <= v2 (snd (RQ A)) <= PI.
Proof.
  unfold RQ. cbv zeta. read_entries.
  rewrite !Ropp_involutive.
  set (u := atan2 (- m21 A) (m22 A)).
  pose proof (atan2_dot_nonneg (- m21 A) (m22 A)) as Hu. fold u in Hu.
  set (B := Matrix_mul A (matrix (Rx u))).
  assert (HB22 : 0 <= m22 B).
  { unfold B, Matrix_mul, Rx, Rot3_entries; read_entries. lra. }
  pose proof (atan2_range (- m21 A) (m22 A)) as Hr. fold u in Hr.
  split; [lra |].
  split; [destruct (atan2_range_right (m20 B) (m22 B) HB22); lra |].
  match goal with
  | |- context [atan2 ?y ?x] => destruct (atan2_range y x); lra
  end.
Qed.

Lemma matrix_RzRyRx (x y z : double) :
  matrix (RzRyRx x y z) =
  Matrix_mul (Matrix_mul (matrix (Rz z)) (matrix (Ry y))) (matrix (Rx x)).
Proof.
  unfold RzRyRx, Rx, Ry, Rz, Rot3_entries, Matrix_mul, matrix; cbv zeta; read_entries.
  f_equal; ring.
Qed.

Lemma Rx_undo_r (t : double) :
  Matrix_mul (matrix (Rx t)) (matrix (Rx (- t))) = I3.
Proof. rewrite <- (Ropp_involutive t) at 1. apply Rx_undo. Qed.

Lemma Ry_undo_r (t : double) :
  Matrix_mul (matrix (Ry t)) (matrix (Ry (- t))) = I3.
Proof. rewrite <- (Ropp_involutive t) at 1. apply Ry_undo. Qed.

Lemma Rz_undo_r (t : double) :
  Matrix_mul (matrix (Rz t)) (matrix (Rz (- t))) = I3.
Proof. rewrite <- (Ropp_involutive t) at 1. apply Rz_undo. Qed.

Lemma atan2_of_angle (t : double) :
  - PI <= t < PI -> - atan2 (- sin t) (cos t) = t.
Proof.
  intros Ht.
  replace (- sin t) with (1 * sin (- t)) by (rewrite sin_neg; ring).
  replace (cos t) with (1 * cos (- t)) by (rewrite cos_neg; ring).
  rewrite atan2_polar by lra. ring.
Qed.

Lemma RQ_RzRyRx (x y z : double) :
  - PI <= x < PI -> - (PI / 2) < y < PI / 2 -> - PI <= z < PI ->
  RQ (matrix (RzRyRx x y z)) = (I3, Vector_3 x y z).
Proof.
  intros Hx Hy Hz. pose proof PI_RGT_0 as HPI.
  assert (Hcy : 0 < cos y) by (apply cos_gt_0; lra).
  unfold RQ. cbv zeta.
  assert (Ex : - atan2 (- m21 (matrix (RzRyRx x y z)))
                       (m22 (matrix (RzRyRx x y z))) = x).
  { unfold RzRyRx, Rot3_entries; cbv zeta; read_entries.
    replace (- (sin x * cos y)) with (cos y * sin (- x))
      by (rewrite sin_neg; ring).
    replace (cos x * cos y) with (cos y * cos (- x))
      by (rewrite cos_neg; ring).
    rewrite atan2_polar by lra. ring. }
  rewrite Ex.
  assert (EB : Matrix_mul (matrix (RzRyRx x y z)) (matrix (Rx (- x))) =
               Matrix_mul (matrix (Rz z)) (matrix (Ry y))).
  { rewrite matrix_RzRyRx, Matrix_mul_assoc, Rx_undo_r. apply Matrix_mul_I3_r. }
  rewrite EB.
  assert (Ey : - atan2 (m20 (Matrix_mul (matrix (Rz z)) (matrix (Ry y))))
                       (m22 (Matrix_mul (matrix (Rz z)) (matrix (Ry y)))) = y).
  { unfold Matrix_mul, Rz, Ry, Rot3_entries; read_entries.
    replace (0 * cos y + 0 * 0 + 1 * - sin y) with (- sin y) by ring.
    replace (0 * sin y + 0 * 0 + 1 * cos y) with (cos y) by ring.
    apply atan2_of_angle. lra. }
  rewrite Ey.
  assert (EC : Matrix_mul (Matrix_mul (matrix (Rz z)) (matrix (Ry y)))
                 (matrix (Ry (- y))) = matrix (Rz z)).
  { rewrite Matrix_mul_assoc, Ry_undo_r. apply Matrix_mul_I3_r. }
  rewrite EC.
  assert (Ez : - atan2 (- m10 (matrix (Rz z))) (m11 (matrix (Rz z))) = z).
  { unfold Rz, Rot3_entries; read_entries. apply atan2_of_angle. lra. }
  rewrite Ez, Rz_undo_r. reflexivity.
Qed.

(** X24.  [RQ] undoes [RzRyRx]: for x and z in [−π, π) and y in
    (−π/2, π/2), [RQ] of the matrix of [RzRyRx x y z] is the identity
    with the angles (x, y, z); so [xyz] and [rpy] give (x, y, z) and [ypr]
    gives (z, y, x). *)
Theorem xyz_of_RzRyRx (x y z : double) :
  - PI <= x < PI -> - (PI / 2) < y < PI / 2 -> - PI <= z < PI ->
  RQ (matrix (RzRyRx x y z)) = (I3, Vector_3 x y z) /\
  xyz (RzRyRx x y z) = Vector_3 x y z /\
  rpy (RzRyRx x y z) = Vector_3 x y z /\
  ypr (RzRyRx x y z) = Vector_3 z y x.
Proof.
  intros Hx Hy Hz. pose proof (RQ_RzRyRx x y z Hx Hy Hz) as H.
  unfold ypr, rpy, xyz. rewrite H. repeat split.
Qed.

Lemma quarter_angles_in_range :
  - PI <= PI / 2 < PI /\ - (PI / 2) < 0 < PI / 2.
Proof. pose proof PI_RGT_0. lra. Qed.

(** Witness for X24: the angles (π/2, 0, π/2). *)
Lemma xyz_of_RzRyRx_witness :
  - PI <= PI / 2 < PI /\ - (PI / 2) < 0 < PI / 2 /\
  xyz (RzRyRx (PI / 2) 0 (PI / 2)) = Vector_3 (PI / 2) 0 (PI / 2).
Proof.
  split; [exact (proj1 quarter_angles_in_range) |].
  split; [exact (proj2 quarter_angles_in_range) |].
  exact (proj1 (proj2 (xyz_of_RzRyRx (PI / 2) 0 (PI / 2)
                         (proj1 quarter_angles_in_range)
                         (proj2 quarter_angles_in_range)
                         (proj1 quarter_angles_in_range)))).
Defined.

(** ** equals *)

(** X25.  [equals] with tolerance 0 is equality of rotations; [equals] is
    symmetric in its two rotations; and tolerances add up along a chain. *)
Theorem equals_is_a_tolerance_relation (R1 R2 R3 : Rot3 double) (tol tol' : double) :
  (Rot3_equals R1 R2 0 <-> R1 = R2) /\
  (Rot3_equals R1 R2 tol <-> Rot3_equals R2 R1 tol) /\
  (Rot3_equals R1 R2 tol -> Rot3_equals R2 R3 tol' ->
   Rot3_equals R1 R3 (tol + tol')).
Proof.
  destruct R1 as [[a1 d1 g1] [b1 e1 h1] [c1 f1 i1]],
           R2 as [[a2 d2 g2] [b2 e2 h2] [c2 f2 i2]],
           R3 as [[a3 d3 g3] [b3 e3 h3] [c3 f3 i3]].
  unfold Rot3_equals, equal_with_abs_tol; read_entries.
  split; [| split].
  - split.
    + intros H. repeat match goal with H : _ /\ _ |- _ => destruct H end.
      repeat match goal with
             | H : Rabs _ <= 0 |- _ => apply Rabs_le_between in H
             end.
      rot3_ext; lra.
    + intros H. injection H as -> -> -> -> -> -> -> -> ->.
      repeat split; rewrite Rminus_diag, Rabs_R0; lra.
  - split; intros H;
      repeat match goal with H : _ /\ _ |- _ => destruct H end;
      repeat split; rewrite Rabs_minus_sym; assumption.
  - intros H H'.
    repeat match goal with H : _ /\ _ |- _ => destruct H end.
    repeat match goal with
           | H : Rabs _ <= _ |- _ => apply Rabs_le_between in H
           end.
    repeat split; apply Rabs_le; lra.
Qed.

(** ** Storage layer, continued *)

Section StorageRoundTrips.
Context {D : Type}.

(** X26.  For any scalar type, a rotation survives the trip through its
    matrix, a matrix the trip through a rotation, and transposing twice
    gives back the matrix. *)
Theorem storage_round_trips (R : Rot3 D) (M : Matrix D) :
  Rot3_of_Matrix (matrix R) = R /\
  matrix (Rot3_of_Matrix M) = M /\
  Rot3_of_Matrix (Matrix_transposed (transpose R)) = R /\
  Matrix_transposed (Matrix_transposed M) = M.
Proof.
  destruct R as [[] [] []], M. repeat split.
Qed.

End StorageRoundTrips.
